(** * Spatial disease-mapping notebooks (ICAR / BYM / Leroux): data
      preparation and model potentials.

    The three notebooks share one data-loading cell (the [ADJ] column of the
    Scottish lip cancer table is parsed into an adjacency matrix and then into
    the edge lists [node1], [node2]) and declare their models from a few pure
    functions: [icar_pairwise_diff], [pairwise_diff_leroux], [square_sum] and
    the zero-sum potential.  Tensor values are modelled over the real numbers,
    index arrays over [Z], strings as Stdlib strings; the time axis of the
    linear-time notebook, whose length is decided by rounding, is computed on
    binary64 floats. *)

From Stdlib Require PrimFloat FloatOps SpecFloat Uint63.
From Stdlib Require Import String Ascii.
From Stdlib Require DecimalString DecimalZ DecimalPos.
From Stdlib Require Import Reals Lra Lia ZArith Bool Arith List Permutation FinFun Sorted.
Import ListNotations.

(** ** A small error monad: a Python exception is [None]. *)

Definition bind {A B : Type} (m : option A) (k : A -> option B) : option B :=
  match m with
  | Some a => k a
  | None => None
  end.

Notation "x <- m ;; k" := (bind m (fun x => k))
  (at level 61, m at next level, right associativity).

Fixpoint mapM {A B : Type} (f : A -> option B) (l : list A) : option (list B) :=
  match l with
  | [] => Some []
  | a :: r => b <- f a ;; bs <- mapM f r ;; Some (b :: bs)
  end.

(** ** Python strings: [str.strip], [str.split] and [int]. *)

Module PyStr.

(** A [str] is a sequence of code points; the ones the notebooks' input can
    contain are modelled as the 8-bit characters of [ascii]. *)
Definition chars := list ascii.

Definition mem (c : ascii) (set : chars) : bool :=
  existsb (Ascii.eqb c) set.

Fixpoint lstrip (set : chars) (s : chars) : chars :=
  match s with
  | [] => []
  | c :: r => if mem c set then lstrip set r else s
  end.

Definition rstrip (set : chars) (s : chars) : chars :=
  rev (lstrip set (rev s)).

(** [s.strip(set)]: drop the leading and the trailing characters that
    belong to [set]. *)
Definition strip (set : chars) (s : chars) : chars :=
  rstrip set (lstrip set s).

(** [s.split(sep)] for a one-character separator: the pieces between the
    occurrences of [sep]; always at least one piece. *)
Fixpoint split (sep : ascii) (s : chars) : list chars :=
  match s with
  | [] => [[]]
  | c :: r =>
      if Ascii.eqb c sep then [] :: split sep r
      else match split sep r with
           | [] => [[c]]
           | t :: ts => (c :: t) :: ts
           end
  end.

(** Whitespace as [int] sees it: tab, newline, vertical tab, form feed,
    carriage return, space, and in the Latin-1 range NEL (0x85) and the
    no-break space (0xa0). *)
Definition is_space (c : ascii) : bool :=
  let n := nat_of_ascii c in
  ((9 <=? n) && (n <=? 13)) || (n =? 32) || (n =? 133) || (n =? 160).

Definition is_digit (c : ascii) : bool :=
  let n := nat_of_ascii c in (48 <=? n) && (n <=? 57).

Definition digit_val (c : ascii) : Z := Z.of_nat (nat_of_ascii c - 48).

(** The digit part of a decimal literal: digits, with single underscores
    allowed between digits; then optional trailing whitespace up to the end.
    [prev_us] tells whether the previous character was an underscore, [seen]
    whether a digit has been read, [acc] is the value read so far. *)
Fixpoint scan_digits (s : chars) (prev_us seen : bool) (acc : Z) : option Z :=
  match s with
  | [] => if seen && negb prev_us then Some acc else None
  | c :: r =>
      if is_digit c then scan_digits r false true (10 * acc + digit_val c)%Z
      else if Ascii.eqb c "_"%char then
        if seen && negb prev_us then scan_digits r true seen acc else None
      else if seen && negb prev_us && forallb is_space s then Some acc
      else None
  end.

Fixpoint drop_space (s : chars) : chars :=
  match s with
  | [] => []
  | c :: r => if is_space c then drop_space r else s
  end.

(** [int(s)] in base ten: surrounding whitespace, an optional sign, then
    the digits; anything else raises ValueError. *)
Definition int_of_chars (s : chars) : option Z :=
  match drop_space s with
  | "+"%char :: r => scan_digits r false false 0%Z
  | "-"%char :: r => option_map Z.opp (scan_digits r false false 0%Z)
  | r => scan_digits r false false 0%Z
  end.

Definition int (s : string) : option Z :=
  int_of_chars (list_ascii_of_string s).

End PyStr.

(** ** Array operations of numpy / aesara used by the notebooks. *)

Module Numpy.

Local Open Scope R_scope.

(** A one-dimensional float tensor. *)
Definition vec := list R.

(** An integer index into an axis of length [n]: negative indices count from
    the end, anything outside [-n, n) raises IndexError. *)
Definition norm_index (n : nat) (k : Z) : option nat :=
  if ((0 <=? k) && (k <? Z.of_nat n))%Z then Some (Z.to_nat k)
  else if ((- Z.of_nat n <=? k) && (k <? 0))%Z then Some (Z.to_nat (k + Z.of_nat n))
  else None.

Definition in_range (n : nat) (k : Z) : Prop :=
  (- Z.of_nat n <= k < Z.of_nat n)%Z.

(** The values of an index array: signed 64-bit integers, the type of what
    [np.where] returns and of a list of Python integers that fit it.  How
    numpy converts a Python integer beyond this range into an index is not
    modelled; the statements that say exactly when an indexing succeeds, or
    exactly which cells are written, are made for indices of this type. *)
Definition fits_intp (k : Z) : Prop := (- 2 ^ 63 <= k < 2 ^ 63)%Z.

Definition getitem (phi : vec) (k : Z) : option R :=
  i <- norm_index (length phi) k ;; nth_error phi i.

(** [phi[idx]] with an integer index array. *)
Definition take (phi : vec) (idx : list Z) : option vec :=
  mapM (getitem phi) idx.

(** Elementwise binary operation on two one-dimensional tensors, with
    numpy's broadcasting: equal lengths, or one operand of length one;
    any other pair of shapes raises. *)
Definition broadcast2 (f : R -> R -> R) (a b : vec) : option vec :=
  if Nat.eqb (length a) (length b) then Some (map (fun p => f (fst p) (snd p)) (combine a b))
  else match a, b with
       | [x], _ => Some (map (fun y => f x y) b)
       | _, [y] => Some (map (fun x => f x y) a)
       | _, _ => None
       end.

(** Tensor and scalar. *)
Definition adds (a : vec) (c : R) : vec := map (fun v => v + c) a.
Definition smul (c : R) (a : vec) : vec := map (fun v => c * v) a.

(** [a ** 2]. *)
Definition sqr (a : vec) : vec := map (fun v => v ^ 2) a.

(** [a.sum()]. *)
Definition sum (a : vec) : R := fold_right Rplus 0 a.

End Numpy.

(** ** The data-loading cell: from the [ADJ] column to the edge lists. *)

Module Adjacency.

Import PyStr Numpy.
Local Open Scope Z_scope.

(** The dense adjacency matrix, [dtype="int32"], as a list of rows. *)
Definition matrix := list (list Z).

Definition entry (m : matrix) (i j : nat) : Z := nth j (nth i m []) 0.

(** [lambda x: [int(val) for val in x.strip("][").split(",")]] *)
Definition parse_adj (x : string) : option (list Z) :=
  mapM int_of_chars
    (split ","%char (strip ["]"; "["]%char (list_ascii_of_string x))).

(** [for i .. for j ..: adj[i][j] = adj[i][j] - 1] *)
Definition to_python_indexing (adj : list (list Z)) : list (list Z) :=
  map (map (fun v => v - 1)) adj.

(** [np.zeros((n, m), dtype="int32")] *)
Definition zeros (n m : nat) : matrix := repeat (repeat 0 m) n.

Fixpoint set_nth {A : Type} (l : list A) (j : nat) (v : A) : list A :=
  match l, j with
  | [], _ => []
  | _ :: t, O => v :: t
  | h :: t, S j' => h :: set_nth t j' v
  end.

(** [row[idx] = 1] for an integer index list: every index is checked
    against the row length (negative ones wrap), then the cells are set. *)
Definition assign_ones (row : list Z) (idx : list Z) : option (list Z) :=
  cols <- mapM (norm_index (length row)) idx ;;
  Some (fold_left (fun r c => set_nth r c 1) cols row).

(** One iteration of the loop: [adj_matrix[area, adj[area]] = 1]. *)
Definition assign_area (adj : list (list Z)) (m : matrix) (area : nat) : option matrix :=
  nb <- nth_error adj area ;;
  row <- nth_error m area ;;
  row' <- assign_ones row nb ;;
  Some (set_nth m area row').

(** [for area in areas: adj_matrix[area, adj[area]] = 1] *)
Fixpoint assign_areas (adj : list (list Z)) (m : matrix) (areas : list nat) : option matrix :=
  match areas with
  | [] => Some m
  | area :: rest => m' <- assign_area adj m area ;; assign_areas adj m' rest
  end.

(** [adj_matrix = np.zeros((N, N)); for area in range(N): ...] *)
Definition build_adj_matrix (N : nat) (adj : list (list Z)) : option matrix :=
  assign_areas adj (zeros N N) (seq 0 N).

(** The whole cell, from the textual column (one string per area; [N] is
    the number of rows of the table) to the matrix. *)
Definition load_adjacency (col : list string) : option matrix :=
  adj <- mapM parse_adj col ;;
  build_adj_matrix (length col) (to_python_indexing adj).

(** Positions of the entries equal to one in a row, from column [j] on. *)
Fixpoint row_where (i j : nat) (row : list Z) : list (nat * nat) :=
  match row with
  | [] => []
  | v :: r => if v =? 1 then (i, j) :: row_where i (S j) r else row_where i (S j) r
  end.

Fixpoint rows_where (i : nat) (m : matrix) : list (nat * nat) :=
  match m with
  | [] => []
  | r :: m' => row_where i 0 r ++ rows_where (S i) m'
  end.

(** [np.where(adj_matrix == 1)]: the (row, column) positions of the ones,
    in row-major order. *)
Definition where_one (m : matrix) : list (nat * nat) := rows_where 0 m.

(** [N_edges = (adj_matrix == 1).sum()] *)
Definition N_edges (m : matrix) : nat :=
  fold_right Nat.add 0%nat
    (map (fun r => fold_right Nat.add 0%nat (map (fun v => if v =? 1 then 1%nat else 0%nat) r)) m).

(** [node1 = np.where(adj_matrix == 1)[0]], [node2 = np.where(...)[1]] *)
Definition node1 (m : matrix) : list Z := map (fun p => Z.of_nat (fst p)) (where_one m).
Definition node2 (m : matrix) : list Z := map (fun p => Z.of_nat (snd p)) (where_one m).

(** *** Vocabulary of the data model. *)

(** An [N] x [N] matrix of zeros and ones. *)
Definition square (N : nat) (m : matrix) : Prop :=
  length m = N /\ Forall (fun r => length r = N) m.

Definition binary (m : matrix) : Prop :=
  Forall (Forall (fun v => v = 0 \/ v = 1)) m.

Definition symmetric (N : nat) (m : matrix) : Prop :=
  forall i j, (i < N)%nat -> (j < N)%nat -> entry m i j = entry m j i.

(** No area is its own neighbour. *)
Definition hollow (N : nat) (m : matrix) : Prop :=
  forall i, (i < N)%nat -> entry m i i <> 1.

(** The unordered neighbour pairs {i, j}, each listed once as (i, j) with
    i < j. *)
Definition neighbor_pairs (N : nat) (m : matrix) : list (nat * nat) :=
  flat_map (fun i =>
    flat_map (fun j => if (i <? j)%nat && (entry m i j =? 1) then [(i, j)] else [])
             (seq 0 N))
    (seq 0 N).

(** The ones on the diagonal. *)
Definition self_loops (N : nat) (m : matrix) : list (nat * nat) :=
  flat_map (fun i => if entry m i i =? 1 then [(i, i)] else []) (seq 0 N).

Definition swap (p : nat * nat) : nat * nat := (snd p, fst p).

(** The matrix of two mutually adjacent areas. *)
Definition two_areas : matrix := [[0; 1]; [1; 0]].

(** The file lists for area [i] the number j + 1, or the number j + 1 - N:
    after the conversion to 0-based indices these are the index [j] and the
    negative index [j - N], which numpy counts from the end of the row. *)
Definition file_lists (N : nat) (raw : list (list Z)) (i j : nat) : Prop :=
  In (Z.of_nat j + 1) (nth i raw [])
  \/ In (Z.of_nat j + 1 - Z.of_nat N) (nth i raw []).

(** Every number of the file, converted to a 0-based index, has the type
    of an index. *)
Definition intp_column (raw : list (list Z)) : Prop :=
  Forall (Forall (fun v => fits_intp (v - 1))) raw.

(** Area [j] is listed (after the shift to 0-based indices, a negative
    index counting from the end) among the neighbours of area [i]. *)
Definition listed (N : nat) (adj : list (list Z)) (i j : nat) : Prop :=
  exists k, In k (nth i adj []) /\ norm_index N k = Some j.

End Adjacency.

(** ** The potential functions of the notebooks. *)

Module Potentials.

Import Numpy.
Local Open Scope R_scope.

(** [def icar_pairwise_diff(phi, node1, node2):
       return -0.5*((phi[node1]-phi[node2])**2).sum()] *)
Definition icar_pairwise_diff (phi : vec) (node1 node2 : list Z) : option R :=
  a <- take phi node1 ;;
  b <- take phi node2 ;;
  d <- broadcast2 Rminus a b ;;
  Some (-0.5 * sum (sqr d)).

(** [def pairwise_diff_leroux(rho, phi, node1, node2):
       return -0.5 * rho * ((phi[node1]-phi[node2]) ** 2).sum()] *)
Definition pairwise_diff_leroux (rho : R) (phi : vec) (node1 node2 : list Z) : option R :=
  a <- take phi node1 ;;
  b <- take phi node2 ;;
  d <- broadcast2 Rminus a b ;;
  Some (-0.5 * rho * sum (sqr d)).

(** [def square_sum(rho, phi):
       return -0.5 * (1-rho) * (phi ** 2).sum()] *)
Definition square_sum (rho : R) (phi : vec) : R :=
  -0.5 * (1 - rho) * sum (sqr phi).

End Potentials.

(** ** Log-densities of the probabilistic-programming library. *)

Module Pymc.

Local Open Scope R_scope.

(** [pm.logp(pm.Normal.dist(mu, sigma), value)]:
    [-0.5 * ((value - mu) / sigma)**2 - log(sqrt(2*pi)) - log(sigma)]. *)
Definition normal_logp (mu sigma value : R) : R :=
  -0.5 * ((value - mu) / sigma) ^ 2 - ln (sqrt (2 * PI)) - ln sigma.

(** The Poisson log-mass at count [k] for rate [mu]:
    [k * log(mu) - log(k!) - mu]. *)
Definition poisson_logp (mu : R) (k : nat) : R :=
  INR k * ln mu - ln (INR (fact k)) - mu.

End Pymc.

(** ** The model declarations. *)

Module Models.

Import Numpy Potentials Pymc.
Local Open Scope R_scope.
Local Open Scope string_scope.

(** What a declaration hands to the sampler, evaluated at one point of the
    parameter space: the vector-valued free variables by name, and the
    named potentials (a potential whose expression raises is [None]). *)
Record model := {
  free_vectors : list (string * vec);
  potentials : list (string * option R)
}.

Fixpoint lookup {A : Type} (k : string) (l : list (string * A)) : option A :=
  match l with
  | [] => None
  | (k', v) :: r => if String.eqb k k' then Some v else lookup k r
  end.

(** [zero_constraint = pm.Normal.dist(mu=0.0, sigma=np.sqrt(0.001))] and
    [pm.logp(zero_constraint, pm.math.sum(v))]. *)
Definition zero_constraint (value : R) : R := normal_logp 0 (sqrt 0.001) value.

Definition zero_sum (v : vec) : R := zero_constraint (sum v).

(** *** BYM *)

Record bym_point := {
  bym_tau_theta : R;
  bym_tau_phi : R;
  bym_theta : vec;
  bym_phi : vec;
  bym_beta0 : R;
  bym_beta1 : R
}.

Definition bym_model (node1 node2 : list Z) (p : bym_point) : model := {|
  free_vectors := [("theta", bym_theta p); ("phi", bym_phi p)];
  potentials :=
    [("spatial_diff", icar_pairwise_diff (bym_phi p) node1 node2);
     ("zero_sum_theta", Some (zero_sum (bym_theta p)));
     ("zero_sum_phi", Some (zero_sum (bym_phi p)))]
|}.

(** [sigma_phi = 1/at.sqrt(tau_phi)] *)
Definition bym_sigma_phi (p : bym_point) : R := 1 / sqrt (bym_tau_phi p).

(** [eta = logE + beta0 + beta1*x + sigma_phi*phi + theta] *)
Definition bym_eta (logE x : vec) (p : bym_point) : option vec :=
  t <- broadcast2 Rplus (adds logE (bym_beta0 p)) (smul (bym_beta1 p) x) ;;
  t <- broadcast2 Rplus t (smul (bym_sigma_phi p) (bym_phi p)) ;;
  broadcast2 Rplus t (bym_theta p).

(** [obs = pm.Poisson("obs", at.exp(eta), observed=y)]: the rate of every
    area, and the log-likelihood of the observed counts. *)
Definition bym_obs_rate (logE x : vec) (p : bym_point) : option vec :=
  eta <- bym_eta logE x p ;; Some (map exp eta).

Definition bym_obs_logp (logE x : vec) (y : list nat) (p : bym_point) : option R :=
  mu <- bym_obs_rate logE x p ;;
  if Nat.eqb (length mu) (length y)
  then Some (sum (map (fun q => poisson_logp (fst q) (snd q)) (combine mu y)))
  else None.

(** A point of the BYM parameter space over two areas. *)
Definition bym_two_areas_point : bym_point := {|
  bym_tau_theta := 2; bym_tau_phi := 4;
  bym_theta := [0.1; -0.1]; bym_phi := [1; -1];
  bym_beta0 := 0.5; bym_beta1 := 0.25
|}.

(** *** Leroux (static) *)

Record leroux_point := {
  lx_tau_phi : R;
  lx_rho : R;
  lx_phi : vec;
  lx_beta0 : R;
  lx_beta1 : R
}.

Definition leroux_model (node1 node2 : list Z) (p : leroux_point) : model := {|
  free_vectors := [("phi", lx_phi p)];
  potentials :=
    [("spatial_diff", pairwise_diff_leroux (lx_rho p) (lx_phi p) node1 node2);
     ("square_sum", Some (square_sum (lx_rho p) (lx_phi p)));
     ("zero_sum_phi", Some (zero_sum (lx_phi p)))]
|}.

(** *** Leroux (linear time); [phi] and [delta] are columns, one entry per
    area. *)

Record st_leroux_point := {
  st_tau_phi : R;
  st_rho_intercept : R;
  st_phi : vec;
  st_tau_delta : R;
  st_rho_slope : R;
  st_delta : vec;
  st_beta0 : R;
  st_beta1 : R;
  st_alpha : R
}.

Definition st_leroux_model (node1 node2 : list Z) (p : st_leroux_point) : model := {|
  free_vectors := [("phi", st_phi p); ("delta", st_delta p)];
  potentials :=
    [("spatial_diff_intercept",
        pairwise_diff_leroux (st_rho_intercept p) (st_phi p) node1 node2);
     ("square_sum_intercept", Some (square_sum (st_rho_intercept p) (st_phi p)));
     ("spatial_diff_slope",
        pairwise_diff_leroux (st_rho_slope p) (st_delta p) node1 node2);
     ("square_sum_slope", Some (square_sum (st_rho_slope p) (st_delta p)));
     ("zero_sum_phi", Some (zero_sum (st_phi p)));
     ("zero_sum_delta", Some (zero_sum (st_delta p)))]
|}.

End Models.

(** ** Reference definitions, written from the model descriptions. *)

Module Reference.

Import Numpy Adjacency.
Local Open Scope R_scope.

(** Squared difference of the effects of the two areas of a pair. *)
Definition sq_diff (phi : vec) (p : nat * nat) : R :=
  (nth (fst p) phi 0 - nth (snd p) phi 0) ^ 2.

(** The conventional ICAR log-density: minus one half of the sum, over the
    unordered neighbour pairs {i, j}, of (phi[i] - phi[j])^2. *)
Definition icar_conventional (N : nat) (m : matrix) (phi : vec) : R :=
  -0.5 * sum (map (sq_diff phi) (neighbor_pairs N m)).

(** The density of the Normal distribution with the given mean and
    variance, and its logarithm. *)
Definition normal_pdf (mean var x : R) : R :=
  exp (- (x - mean) ^ 2 / (2 * var)) / sqrt (2 * PI * var).

Definition normal_logpdf (mean var x : R) : R := ln (normal_pdf mean var x).

(** The pieces of a neighbour string that are handed to [int]. *)
Definition tokens (x : string) : list PyStr.chars :=
  PyStr.split ","%char (PyStr.strip ["]"; "["]%char (list_ascii_of_string x)).

(** A character that cannot occur in the text of an integer. *)
Definition non_numeric_char (c : ascii) : bool :=
  negb (PyStr.is_digit c || PyStr.is_space c
        || PyStr.mem c ["+"; "-"; "_"]%char).

(** A token that is not a number: it holds such a character, or no digit
    at all. *)
Definition non_numeric (t : PyStr.chars) : bool :=
  existsb non_numeric_char t || negb (existsb PyStr.is_digit t).

Definition has_non_numeric_token (x : string) : bool :=
  existsb non_numeric (tokens x).

(** Square brackets properly nested: no ["]"] without an open ["["], and
    none left open at the end. *)
Fixpoint balanced_from (depth : nat) (s : PyStr.chars) : bool :=
  match s with
  | [] => Nat.eqb depth 0
  | c :: r =>
      if Ascii.eqb c "["%char then balanced_from (S depth) r
      else if Ascii.eqb c "]"%char then
        match depth with
        | O => false
        | S d => balanced_from d r
        end
      else balanced_from depth r
  end.

Definition brackets_balanced (x : string) : bool :=
  balanced_from 0 (list_ascii_of_string x).

Definition malformed (x : string) : bool :=
  has_non_numeric_token x || negb (brackets_balanced x).

(** A string made of square brackets only. *)
Definition brackets_only (x : string) : bool :=
  forallb (fun c => PyStr.mem c ["]"; "["]%char) (list_ascii_of_string x).

(** The BYM linear predictor of area [i]. *)
Definition bym_linear_predictor (logE x : vec) (p : Models.bym_point) (i : nat) : R :=
  Models.bym_beta0 p + Models.bym_beta1 p * nth i x 0 + nth i logE 0
  + nth i (Models.bym_theta p) 0
  + 1 / sqrt (Models.bym_tau_phi p) * nth i (Models.bym_phi p) 0.

End Reference.

(** ** The synthetic time axis of the linear-time notebook. *)

Module Synthetic.

Import PrimFloat.
Local Open Scope Z_scope.
#[local] Set Warnings "-inexact-float".

(** Values of type [float64] are the kernel's binary64 numbers. *)

(** The ceiling of a float as an array length; NaN, the infinities and
    values beyond the range of a signed 64-bit integer raise. *)
Definition ceil_to_intp (f : float) : option Z :=
  match FloatOps.Prim2SF f with
  | SpecFloat.S754_zero _ => Some 0
  | SpecFloat.S754_finite s m e =>
      let v := if s then Z.neg m else Z.pos m in
      let c := if 0 <=? e then v * 2 ^ e else - ((- v) / 2 ^ (- e)) in
      if (- 2 ^ 63 <=? c) && (c <? 2 ^ 63) then Some c else None
  | _ => None
  end.

Definition float_of_nat (i : nat) : float :=
  of_uint63 (Uint63.of_Z (Z.of_nat i)).

(** [np.arange(start, stop, step)] on floats: the length is
    [ceil((stop - start)/step)]; the first two entries are [start] and
    [start + step], entry [i] from the third on is [start + i*delta] with
    [delta = (start + step) - start]. *)
Definition arange (start stop step : float) : option (list float) :=
  len <- ceil_to_intp ((stop - start) / step)%float ;;
  let delta := ((start + step) - start)%float in
  Some (map (fun i => match i with
                      | O => start
                      | S O => (start + step)%float
                      | _ => (start + float_of_nat i * delta)%float
                      end)
            (seq 0 (Z.to_nat len))).

(** [multipler = np.arange(1.0, 1.3, step=0.05)] *)
Definition multipler : option (list float) := arange 1.0 1.3 0.05.

(** [T = len(multipler)] *)
Definition T : option nat := option_map (@length float) multipler.

(** The Poisson rate of one draw,
    [lam = y[i]*multipler[j]*random_slope], for an integer count [y]. *)
Definition poisson_lam (y : nat) (m random_slope : float) : float :=
  (float_of_nat y * m * random_slope)%float.

(** [random_slope = 1 + noise]. *)
Definition random_slope (noise : float) : float := (1 + noise)%float.

(** [np.arange(T) - 3], the row written to every area of [t_diff]; its
    entries are integers. *)
Definition t_diff_row (T : nat) : list Z :=
  map (fun t => Z.of_nat t - 3) (seq 0 T).

(** [t_diff = np.zeros((N, T)); for i in range(N): t_diff[i, ] = ...] *)
Definition t_diff (N T : nat) : list (list Z) := repeat (t_diff_row T) N.

End Synthetic.

(** ** Two-dimensional tensors (areas by time steps). *)

Module Tensor2.

Import Numpy.
Local Open Scope R_scope.

(** A two-dimensional float tensor, as the list of its rows. *)
Definition mat := list vec.

(** Tensor and scalar, entry by entry. *)
Definition madds (A : mat) (c : R) : mat := map (fun r => adds r c) A.
Definition msmul (c : R) (A : mat) : mat := map (smul c) A.
Definition mmuls (A : mat) (c : R) : mat := map (map (fun v => v * c)) A.
Definition sadd (c : R) (A : mat) : mat := map (map (fun v => c + v)) A.

(** A vector with [dims=("num_areas", "dummy")]: one row of length one per
    area. *)
Definition column (v : vec) : mat := map (fun x => [x]) v.

(** Elementwise binary operation on two two-dimensional tensors with
    broadcasting along either axis: the numbers of rows agree or one of
    them is one, and likewise the numbers of columns. *)
Definition broadcast2d (f : R -> R -> R) (A B : mat) : option mat :=
  if Nat.eqb (length A) (length B)
  then mapM (fun p => broadcast2 f (fst p) (snd p)) (combine A B)
  else match A, B with
       | [r], _ => mapM (fun b => broadcast2 f r b) B
       | _, [r] => mapM (fun a => broadcast2 f a r) A
       | _, _ => None
       end.

(** The shape (n, m). *)
Definition shape (n m : nat) (A : mat) : Prop :=
  length A = n /\ Forall (fun r => length r = m) A.

End Tensor2.

(** ** The linear predictors of the two Leroux notebooks. *)

Module Predictors.

Import Numpy Tensor2 Models.
Local Open Scope R_scope.

(** [sigma_phi = 1/at.sqrt(tau_phi)] *)
Definition leroux_sigma_phi (p : leroux_point) : R := 1 / sqrt (lx_tau_phi p).

(** [eta = logE + beta0 + beta1*x + sigma_phi*phi] *)
Definition leroux_eta (logE x : vec) (p : leroux_point) : option vec :=
  t <- broadcast2 Rplus (adds logE (lx_beta0 p)) (smul (lx_beta1 p) x) ;;
  broadcast2 Rplus t (smul (leroux_sigma_phi p) (lx_phi p)).

Definition st_sigma_phi (p : st_leroux_point) : R := 1 / sqrt (st_tau_phi p).
Definition st_sigma_delta (p : st_leroux_point) : R := 1 / sqrt (st_tau_delta p).

(** [eta = log_offset_time + beta0 + beta1*x_time + phi*sigma_phi
          + (alpha+delta*sigma_delta)*t_diff] *)
Definition st_leroux_eta (log_offset_time x_time t_diff : mat)
    (p : st_leroux_point) : option mat :=
  t <- broadcast2d Rplus (madds log_offset_time (st_beta0 p))
                         (msmul (st_beta1 p) x_time) ;;
  t <- broadcast2d Rplus t (mmuls (column (st_phi p)) (st_sigma_phi p)) ;;
  s <- broadcast2d Rmult
         (sadd (st_alpha p) (mmuls (column (st_delta p)) (st_sigma_delta p)))
         t_diff ;;
  broadcast2d Rplus t s.

(** Sample inputs over two areas and two time steps. *)
Definition st_two_areas_point : st_leroux_point := {|
  st_tau_phi := 4; st_rho_intercept := 0.5; st_phi := [1; -1];
  st_tau_delta := 1; st_rho_slope := 0.25; st_delta := [0.5; -0.5];
  st_beta0 := 0.5; st_beta1 := 0.25; st_alpha := 2
|}.

Definition two_by_two : mat := [[1; 2]; [3; 4]].

End Predictors.

(** ** The textual form of a neighbour list. *)

Module Serial.

Import PyStr.

(** The decimal numeral of an integer, as a sequence of characters. *)
Definition decimal (z : Z) : chars :=
  list_ascii_of_string (DecimalString.NilEmpty.string_of_int (Z.to_int z)).

(** The digits of an unsigned numeral. *)
Definition uchars (d : Decimal.uint) : chars :=
  list_ascii_of_string (DecimalString.NilEmpty.string_of_uint d).

(** The pieces joined by a separator character. *)
Fixpoint join (sep : ascii) (ts : list chars) : chars :=
  match ts with
  | [] => []
  | [t] => t
  | t :: r => t ++ sep :: join sep r
  end.

(** The bracketed, comma-separated list of the input file, such as
    [[2,3,5]]. *)
Definition format_adj (l : list Z) : string :=
  string_of_list_ascii
    ("["%char :: join ","%char (map decimal l) ++ ["]"%char]).

(** The same list with whitespace around the numerals, such as
    [[5, 9, 11,19]]: every item is a numeral with the characters written
    before and after it. *)
Definition padded (item : chars * Z * chars) : chars :=
  fst (fst item) ++ decimal (snd (fst item)) ++ snd item.

Definition format_adj_padded (items : list (chars * Z * chars)) : string :=
  string_of_list_ascii
    ("["%char :: join ","%char (map padded items) ++ ["]"%char]).

Definition blank (s : chars) : bool := forallb is_space s.

(** Row-major order of matrix positions. *)
Definition lex_lt (p q : nat * nat) : Prop :=
  (fst p < fst q)%nat \/ (fst p = fst q /\ (snd p < snd q)%nat).

End Serial.

(** * Properties *)

Section OptionMonad.

Context {A B : Type}.

Lemma bind_some (m : option A) (k : A -> option B) (b : B) :
  bind m k = Some b <-> exists a, m = Some a /\ k a = Some b.
Proof.
  destruct m as [a|]; simpl; split.
  - intros H. exists a. auto.
  - intros (a' & E & H). inversion E. subst. exact H.
  - discriminate.
  - intros (a' & E & _). discriminate.
Qed.

Lemma mapM_length (f : A -> option B) (l : list A) (r : list B) :
  mapM f l = Some r -> length r = length l.
Proof.
  revert r. induction l as [|a l IH]; simpl; intros r H.
  - inversion H. reflexivity.
  - destruct (f a); simpl in H; try discriminate.
    destruct (mapM f l) as [bs|]; simpl in H; try discriminate.
    inversion H. simpl. f_equal. apply IH. reflexivity.
Qed.

End OptionMonad.

Section Translation.

Import Numpy Potentials.
Local Open Scope R_scope.

Variable c : R.

Lemma getitem_adds (phi : vec) (k : Z) :
  getitem (adds phi c) k = option_map (fun v => v + c) (getitem phi k).
Proof.
  unfold getitem, adds. rewrite length_map.
  destruct (norm_index (length phi) k) as [i|]; simpl; [|reflexivity].
  apply nth_error_map.
Qed.

Lemma take_adds (phi : vec) (idx : list Z) :
  take (adds phi c) idx = option_map (fun a => adds a c) (take phi idx).
Proof.
  unfold take. induction idx as [|k idx IH]; simpl; [reflexivity|].
  rewrite getitem_adds, IH.
  destruct (getitem phi k); simpl; [|reflexivity].
  destruct (mapM (getitem phi) idx); reflexivity.
Qed.

Lemma zip_minus_adds (a b : vec) :
  map (fun p => fst p - snd p) (combine (adds a c) (adds b c))
  = map (fun p => fst p - snd p) (combine a b).
Proof.
  revert b. induction a as [|x a IH]; intros [|y b]; simpl; try reflexivity.
  rewrite IH. f_equal. ring.
Qed.

Lemma broadcast2_minus_adds (a b : vec) :
  broadcast2 Rminus (adds a c) (adds b c) = broadcast2 Rminus a b.
Proof.
  unfold broadcast2. unfold adds at 1 2. rewrite !length_map.
  destruct (Nat.eqb (length a) (length b)).
  - f_equal. apply zip_minus_adds.
  - destruct a as [|x [|x' a]], b as [|y [|y' b]]; simpl; try reflexivity;
      unfold adds; rewrite ?map_map; f_equal;
      repeat (match goal with |- _ :: _ = _ :: _ => f_equal; try ring end);
      try reflexivity; apply map_ext; intros; ring.
Qed.

End Translation.

Section LerouxEndpoints.

Import Numpy Potentials.
Local Open Scope R_scope.

Lemma take_defined (phi : vec) (idx : list Z) :
  Forall (in_range (length phi)) idx ->
  exists a, take phi idx = Some a /\ length a = length idx.
Proof.
  unfold take. induction 1 as [|k idx Hk _ (a & Ha & Hl)]; simpl.
  - exists []. auto.
  - assert (Hg : exists v, getitem phi k = Some v).
    { unfold getitem, norm_index. unfold in_range in Hk.
      destruct (Z.leb_spec 0 k); destruct (Z.ltb_spec k (Z.of_nat (length phi)));
        destruct (Z.leb_spec (- Z.of_nat (length phi)) k);
        destruct (Z.ltb_spec k 0); simpl; try lia;
        match goal with
        | |- exists v, nth_error ?l ?i = Some v =>
            destruct (nth_error l i) as [v|] eqn:E;
            [exists v; reflexivity | apply nth_error_None in E; lia]
        end. }
    destruct Hg as (v & ->). rewrite Ha. simpl. exists (v :: a). simpl. auto.
Qed.

(** C2: the ridge term [square_sum] is zero at [rho = 1]; on edge lists
    that index into the vector the pairwise term [pairwise_diff_leroux] is
    zero at [rho = 0]. *)
Theorem leroux_endpoints (phi : vec) (node1 node2 : list Z) :
  Forall (in_range (length phi)) node1 ->
  Forall (in_range (length phi)) node2 ->
  length node1 = length node2 ->
  square_sum 1 phi = 0 /\ pairwise_diff_leroux 0 phi node1 node2 = Some 0.
Proof.
  intros H1 H2 Hlen. split.
  - unfold square_sum. ring.
  - unfold pairwise_diff_leroux.
    destruct (take_defined phi node1 H1) as (a & -> & Ha).
    destruct (take_defined phi node2 H2) as (b & -> & Hb). simpl.
    unfold broadcast2. replace (length a) with (length b) by congruence.
    rewrite Nat.eqb_refl. simpl. f_equal. ring.
Qed.

Lemma leroux_endpoints_witness :
  square_sum 1 [2; 5] = 0
  /\ pairwise_diff_leroux 0 [2; 5] [0; 1]%Z [1; 0]%Z = Some 0.
Proof.
  apply (leroux_endpoints [2; 5] [0; 1]%Z [1; 0]%Z);
    [ repeat constructor; unfold in_range; simpl; lia
    | repeat constructor; unfold in_range; simpl; lia
    | reflexivity ].
Defined.

(** Outside these edge lists the pairwise term raises; it is never a
    non-zero number at [rho = 0]. *)
Lemma pairwise_diff_leroux_zero_rho (phi : vec) (node1 node2 : list Z) (v : R) :
  pairwise_diff_leroux 0 phi node1 node2 = Some v -> v = 0.
Proof.
  unfold pairwise_diff_leroux.
  destruct (take phi node1) as [a|]; simpl; [|discriminate].
  destruct (take phi node2) as [b|]; simpl; [|discriminate].
  destruct (broadcast2 Rminus a b) as [d|]; simpl; [|discriminate].
  intros H. inversion H. ring.
Qed.

(** C10: both pairwise-difference potentials are unchanged when a constant
    is added to every entry of the vector. *)
Theorem pairwise_diff_translation_invariant
    (rho c : R) (phi : vec) (node1 node2 : list Z) :
  pairwise_diff_leroux rho (adds phi c) node1 node2
    = pairwise_diff_leroux rho phi node1 node2
  /\ icar_pairwise_diff (adds phi c) node1 node2
    = icar_pairwise_diff phi node1 node2.
Proof.
  unfold pairwise_diff_leroux, icar_pairwise_diff.
  rewrite !take_adds.
  destruct (take phi node1) as [a|]; simpl; [|split; reflexivity].
  destruct (take phi node2) as [b|]; simpl; [|split; reflexivity].
  rewrite broadcast2_minus_adds. split; reflexivity.
Qed.

End LerouxEndpoints.



(** ** The edge lists of a matrix. *)

Section EdgeEnumeration.

Import Adjacency.
Local Open Scope nat_scope.

Lemma in_row_where (i j0 : nat) (row : list Z) (a b : nat) :
  In (a, b) (row_where i j0 row) <->
  a = i /\ j0 <= b /\ nth (b - j0) row 0%Z = 1%Z.
Proof.
  revert j0. induction row as [|v r IH]; intros j0; simpl.
  - split; [tauto|]. intros (_ & _ & H). destruct (b - j0); discriminate.
  - assert (step : forall R : Prop,
              (R <-> a = i /\ S j0 <= b /\ nth (b - S j0) r 0%Z = 1%Z) ->
              ((v = 1%Z /\ (i, j0) = (a, b)) \/ R <->
               a = i /\ j0 <= b /\
               match b - j0 with 0 => v | S k => nth k r 0%Z end = 1%Z)).
    { intros R HR. rewrite HR. split.
      - intros [(Hv & E) | (Ha & Hb & Hn)].
        + inversion E. subst. rewrite Nat.sub_diag. auto.
        + replace (b - j0) with (S (b - S j0)) by lia. auto with arith.
      - intros (Ha & Hb & Hn). destruct (b - j0) as [|k] eqn:E.
        + left. split; [exact Hn|]. f_equal; [auto|lia].
        + right. replace (b - S j0) with k by lia. split; [auto|]. split; [lia|auto]. }
    destruct (Z.eqb_spec v 1) as [Hv|Hv]; simpl.
    + rewrite <- (step _ (IH (S j0))). tauto.
    + rewrite <- (step _ (IH (S j0))). tauto.
Qed.

Lemma NoDup_row_where (i j0 : nat) (row : list Z) :
  NoDup (row_where i j0 row).
Proof.
  revert j0. induction row as [|v r IH]; intros j0; simpl.
  - constructor.
  - destruct (v =? 1)%Z; [|apply IH].
    constructor; [|apply IH].
    rewrite in_row_where. lia.
Qed.

Lemma in_rows_where (i0 : nat) (m : matrix) (a b : nat) :
  In (a, b) (rows_where i0 m) <->
  i0 <= a /\ nth b (nth (a - i0) m []) 0%Z = 1%Z.
Proof.
  revert i0. induction m as [|r m IH]; intros i0; simpl.
  - split; [tauto|]. intros (_ & H). destruct (a - i0), b; discriminate.
  - rewrite in_app_iff, in_row_where, IH, Nat.sub_0_r. split.
    + intros [(Ha & _ & Hn) | (Ha & Hn)].
      * subst. rewrite Nat.sub_diag. auto.
      * replace (a - i0) with (S (a - S i0)) by lia. auto with arith.
    + intros (Ha & Hn). destruct (a - i0) as [|k] eqn:E.
      * left. split; [lia|]. split; [lia|auto].
      * right. replace (a - S i0) with k by lia. split; [lia|auto].
Qed.

Lemma NoDup_rows_where (i0 : nat) (m : matrix) : NoDup (rows_where i0 m).
Proof.
  revert i0. induction m as [|r m IH]; intros i0; simpl.
  - constructor.
  - apply NoDup_app; [apply NoDup_row_where | apply IH |].
    intros [a b]. rewrite in_row_where, in_rows_where. lia.
Qed.

(** A position is enumerated exactly when its cell holds a one. *)
Lemma in_where_one (m : matrix) (i j : nat) :
  In (i, j) (where_one m) <-> entry m i j = 1%Z.
Proof.
  unfold where_one, entry. rewrite in_rows_where, Nat.sub_0_r.
  split; [tauto | auto with arith].
Qed.

Lemma NoDup_where_one (m : matrix) : NoDup (where_one m).
Proof. apply NoDup_rows_where. Qed.

Lemma entry_one_bounds (N : nat) (m : matrix) (i j : nat) :
  square N m -> entry m i j = 1%Z -> i < N /\ j < N.
Proof.
  intros [Hl Hr] H. unfold entry in H.
  destruct (Nat.lt_ge_cases i (length m)) as [Hi|Hi].
  - split; [lia|].
    rewrite Forall_forall in Hr. rewrite <- (Hr (nth i m [])) by (apply nth_In; exact Hi).
    destruct (Nat.lt_ge_cases j (length (nth i m []))) as [Hj|Hj]; [exact Hj|].
    rewrite (nth_overflow _ _ Hj) in H. discriminate.
  - rewrite (nth_overflow _ _ Hi) in H. destruct j; discriminate.
Qed.

Lemma length_row_where (i j0 : nat) (row : list Z) :
  length (row_where i j0 row)
  = fold_right Nat.add 0 (map (fun v => if (v =? 1)%Z then 1 else 0) row).
Proof.
  revert j0. induction row as [|v r IH]; intros j0; simpl; [reflexivity|].
  destruct (v =? 1)%Z; simpl; rewrite IH; reflexivity.
Qed.

(** The count [(adj_matrix == 1).sum()] is the length of the edge lists. *)
Lemma N_edges_rows_where (i0 : nat) (m : matrix) :
  N_edges m = length (rows_where i0 m).
Proof.
  unfold N_edges. revert i0.
  induction m as [|r m IH]; intros i0; simpl; [reflexivity|].
  rewrite length_app, length_row_where, (IH (S i0)). reflexivity.
Qed.

Lemma N_edges_length (m : matrix) : N_edges m = length (where_one m).
Proof. apply N_edges_rows_where. Qed.

Lemma length_node1 (m : matrix) : length (node1 m) = N_edges m.
Proof. unfold node1. rewrite length_map. symmetry. apply N_edges_length. Qed.

Lemma length_node2 (m : matrix) : length (node2 m) = N_edges m.
Proof. unfold node2. rewrite length_map. symmetry. apply N_edges_length. Qed.

End EdgeEnumeration.

(** ** Directed edges against unordered pairs. *)

Section DoubleCounting.

Import Adjacency.
Local Open Scope nat_scope.

Lemma NoDup_flat_map_key {A B : Type} (key : B -> A) (f : A -> list B) (l : list A) :
  (forall x y, In y (f x) -> key y = x) ->
  (forall x, NoDup (f x)) ->
  NoDup l -> NoDup (flat_map f l).
Proof.
  intros Hkey Hf Hl. induction Hl as [|x l Hx Hl IH]; simpl.
  - constructor.
  - apply NoDup_app; [apply Hf | exact IH |].
    intros y Hy Hy'. apply in_flat_map in Hy'. destruct Hy' as (x' & Hx' & Hy').
    apply Hkey in Hy, Hy'. congruence.
Qed.

Lemma in_neighbor_pairs (N : nat) (m : matrix) (a b : nat) :
  In (a, b) (neighbor_pairs N m) <->
  a < N /\ b < N /\ a < b /\ entry m a b = 1%Z.
Proof.
  unfold neighbor_pairs. rewrite in_flat_map. split.
  - intros (i & Hi & H). apply in_flat_map in H. destruct H as (j & Hj & H).
    apply in_seq in Hi, Hj.
    destruct (Nat.ltb_spec i j); simpl in H; [|contradiction].
    destruct (Z.eqb_spec (entry m i j) 1); simpl in H; [|contradiction].
    destruct H as [H|[]]. inversion H. subst. lia.
  - intros (Ha & Hb & Hab & He). exists a. split; [apply in_seq; lia|].
    apply in_flat_map. exists b. split; [apply in_seq; lia|].
    apply Nat.ltb_lt in Hab. rewrite Hab, He. simpl. auto.
Qed.

Lemma NoDup_neighbor_pairs (N : nat) (m : matrix) : NoDup (neighbor_pairs N m).
Proof.
  unfold neighbor_pairs. apply NoDup_flat_map_key with (key := fst).
  - intros i p Hp. apply in_flat_map in Hp. destruct Hp as (j & _ & Hp).
    destruct ((i <? j) && (entry m i j =? 1)%Z); [|contradiction].
    destruct Hp as [<-|[]]. reflexivity.
  - intros i. apply NoDup_flat_map_key with (key := snd).
    + intros j p Hp.
      destruct ((i <? j) && (entry m i j =? 1)%Z); [|contradiction].
      destruct Hp as [<-|[]]. reflexivity.
    + intros j. destruct ((i <? j) && (entry m i j =? 1)%Z); repeat constructor; auto.
    + apply seq_NoDup.
  - apply seq_NoDup.
Qed.

Lemma in_self_loops (N : nat) (m : matrix) (a b : nat) :
  In (a, b) (self_loops N m) <-> a < N /\ a = b /\ entry m a a = 1%Z.
Proof.
  unfold self_loops. rewrite in_flat_map. split.
  - intros (i & Hi & H). apply in_seq in Hi.
    destruct (Z.eqb_spec (entry m i i) 1); [|contradiction].
    destruct H as [H|[]]. inversion H. subst. lia.
  - intros (Ha & <- & He). exists a. split; [apply in_seq; lia|].
    rewrite He. simpl. auto.
Qed.

Lemma NoDup_self_loops (N : nat) (m : matrix) : NoDup (self_loops N m).
Proof.
  unfold self_loops. apply NoDup_flat_map_key with (key := fst).
  - intros i p Hp. destruct (entry m i i =? 1)%Z; [|contradiction].
    destruct Hp as [<-|[]]. reflexivity.
  - intros i. destruct (entry m i i =? 1)%Z; repeat constructor; auto.
  - apply seq_NoDup.
Qed.

Lemma swap_injective : Injective swap.
Proof. intros [a b] [a' b'] H. inversion H. reflexivity. Qed.

Lemma in_map_swap (l : list (nat * nat)) (a b : nat) :
  In (a, b) (map swap l) <-> In (b, a) l.
Proof.
  rewrite in_map_iff. split.
  - intros ([x y] & E & H). inversion E. subst. exact H.
  - intros H. exists (b, a). auto.
Qed.

(** The enumeration of the ones of a symmetric matrix lists every
    unordered pair in both directions, and every diagonal one once. *)
Lemma where_one_split (N : nat) (m : matrix) :
  square N m -> symmetric N m ->
  Permutation (where_one m)
    (neighbor_pairs N m ++ map swap (neighbor_pairs N m) ++ self_loops N m).
Proof.
  intros Hsq Hsym. apply NoDup_Permutation.
  - apply NoDup_where_one.
  - apply NoDup_app; [apply NoDup_neighbor_pairs | apply NoDup_app |].
    + apply Injective_map_NoDup; [apply swap_injective | apply NoDup_neighbor_pairs].
    + apply NoDup_self_loops.
    + intros [a b]. rewrite in_map_swap, in_neighbor_pairs, in_self_loops. lia.
    + intros [a b]. rewrite in_app_iff, in_map_swap, !in_neighbor_pairs, in_self_loops. lia.
  - intros [a b].
    rewrite !in_app_iff, in_map_swap, !in_neighbor_pairs, in_self_loops, in_where_one.
    split.
    + intros He. destruct (entry_one_bounds N m a b Hsq He) as [Ha Hb].
      destruct (Nat.lt_total a b) as [Hab | [Hab | Hab]].
      * left. auto.
      * right. right. subst. auto.
      * right. left. rewrite <- (Hsym a b Ha Hb). auto.
    + intros [(_ & _ & _ & He) | [(Hb & Ha & _ & He) | (_ & <- & He)]]; auto.
      rewrite (Hsym a b Ha Hb). exact He.
Qed.

Lemma hollow_no_self_loops (N : nat) (m : matrix) :
  hollow N m -> self_loops N m = [].
Proof.
  intros Hh. destruct (self_loops N m) as [|[a b] l] eqn:E; [reflexivity|].
  assert (H : In (a, b) (self_loops N m)) by (rewrite E; left; reflexivity).
  apply in_self_loops in H. destruct H as (Ha & _ & He).
  destruct (Hh a Ha He).
Qed.

Lemma two_areas_symmetric : symmetric 2 two_areas.
Proof.
  intros i j Hi Hj.
  destruct i as [|[|i]], j as [|[|j]]; try lia; reflexivity.
Qed.

Lemma two_areas_square : square 2 two_areas.
Proof. split; [reflexivity | repeat constructor]. Qed.

Lemma two_areas_hollow : hollow 2 two_areas.
Proof. intros i Hi. destruct i as [|[|i]]; try lia; discriminate. Qed.

(** C6 (amended): for a symmetric N x N matrix the number of extracted
    edges is twice the number of unordered neighbour pairs plus the number
    of ones on the diagonal; with a zero diagonal it is exactly twice the
    number of unordered pairs.  The matrix of two mutually adjacent areas
    yields node1 = [0, 1], node2 = [1, 0], N_edges = 2. *)
Theorem N_edges_twice_neighbor_pairs (N : nat) (m : matrix) :
  square N m -> symmetric N m ->
  N_edges m = 2 * length (neighbor_pairs N m) + length (self_loops N m)
  /\ (hollow N m -> N_edges m = 2 * length (neighbor_pairs N m))
  /\ (node1 two_areas = [0; 1]%Z /\ node2 two_areas = [1; 0]%Z
      /\ N_edges two_areas = 2).
Proof.
  intros Hsq Hsym.
  assert (E : N_edges m = 2 * length (neighbor_pairs N m) + length (self_loops N m)).
  { rewrite N_edges_length, (Permutation_length (where_one_split N m Hsq Hsym)).
    rewrite !length_app, length_map. lia. }
  split; [exact E|]. split.
  - intros Hh. rewrite E, (hollow_no_self_loops N m Hh). simpl. lia.
  - repeat split.
Qed.

Lemma N_edges_twice_neighbor_pairs_witness :
  N_edges two_areas = 2 * length (neighbor_pairs 2 two_areas) + length (self_loops 2 two_areas)
  /\ (hollow 2 two_areas -> N_edges two_areas = 2 * length (neighbor_pairs 2 two_areas))
  /\ (node1 two_areas = [0; 1]%Z /\ node2 two_areas = [1; 0]%Z
      /\ N_edges two_areas = 2).
Proof.
  exact (N_edges_twice_neighbor_pairs 2 two_areas two_areas_square two_areas_symmetric).
Defined.

(** C6 as stated fails: the 1 x 1 matrix [[1]] is symmetric and 0/1, it
    has no pair of distinct neighbours, and extraction finds one edge. *)
Lemma N_edges_odd_with_self_loop :
  square 1 [[1%Z]] /\ binary [[1%Z]] /\ symmetric 1 [[1%Z]]
  /\ N_edges [[1%Z]] = 1
  /\ Nat.odd (N_edges [[1%Z]]) = true
  /\ N_edges [[1%Z]] <> 2 * length (neighbor_pairs 1 [[1%Z]]).
Proof.
  split; [split; [reflexivity | repeat constructor]|].
  split; [constructor; [constructor; [right; reflexivity | constructor] | constructor]|].
  split; [intros i j Hi Hj; assert (i = 0) by lia; assert (j = 0) by lia; subst; reflexivity|].
  split; [reflexivity|]. split; [reflexivity | discriminate].
Qed.

End DoubleCounting.

(** ** The pairwise potential on the extracted edge lists. *)

Section PairwisePotential.

Import Numpy Adjacency Potentials Reference.
Local Open Scope R_scope.

Lemma sum_app (a b : vec) : sum (a ++ b) = sum a + sum b.
Proof. induction a as [|x a IH]; simpl; [ring | rewrite IH; ring]. Qed.

Lemma sum_Permutation (a b : vec) : Permutation a b -> sum a = sum b.
Proof.
  induction 1 as [|x a b _ IH|x y a|a b c _ IH1 _ IH2]; simpl.
  - reflexivity.
  - rewrite IH. reflexivity.
  - ring.
  - congruence.
Qed.

Lemma norm_index_of_nat (n i : nat) :
  (i < n)%nat -> norm_index n (Z.of_nat i) = Some i.
Proof.
  intros Hi. unfold norm_index.
  destruct (Z.leb_spec 0 (Z.of_nat i)); [|lia].
  destruct (Z.ltb_spec (Z.of_nat i) (Z.of_nat n)); [|lia].
  simpl. rewrite Nat2Z.id. reflexivity.
Qed.

Lemma getitem_of_nat (phi : vec) (i : nat) :
  (i < length phi)%nat -> getitem phi (Z.of_nat i) = Some (nth i phi 0).
Proof.
  intros Hi. unfold getitem. rewrite (norm_index_of_nat _ _ Hi). simpl.
  apply nth_error_nth'. exact Hi.
Qed.

Lemma take_of_nat {A : Type} (phi : vec) (pos : A -> nat) (l : list A) :
  Forall (fun p => (pos p < length phi)%nat) l ->
  take phi (map (fun p => Z.of_nat (pos p)) l) = Some (map (fun p => nth (pos p) phi 0) l).
Proof.
  unfold take. induction 1 as [|p l Hp _ IH]; simpl; [reflexivity|].
  rewrite (getitem_of_nat _ _ Hp), IH. reflexivity.
Qed.

Lemma broadcast2_zip {A : Type} (f : R -> R -> R) (u v : A -> R) (l : list A) :
  broadcast2 f (map u l) (map v l) = Some (map (fun p => f (u p) (v p)) l).
Proof.
  unfold broadcast2. rewrite !length_map, Nat.eqb_refl. f_equal.
  induction l as [|p l IH]; simpl; [reflexivity | rewrite IH; reflexivity].
Qed.

(** On the edge lists of a matrix whose ones lie inside the vector, the
    summed squared differences run over the enumerated positions. *)
Lemma edge_squares (N : nat) (m : matrix) (phi : vec) :
  length phi = N -> square N m ->
  (a <- take phi (node1 m) ;; b <- take phi (node2 m) ;;
   d <- broadcast2 Rminus a b ;; Some (sum (sqr d)))
  = Some (sum (map (sq_diff phi) (where_one m))).
Proof.
  intros Hphi Hsq. unfold node1, node2.
  assert (Hin : Forall (fun p => (fst p < length phi)%nat /\ (snd p < length phi)%nat)
                       (where_one m)).
  { apply Forall_forall. intros [i j] H. apply in_where_one in H.
    rewrite Hphi. exact (entry_one_bounds N m i j Hsq H). }
  rewrite (take_of_nat phi fst), (take_of_nat phi snd);
    try (eapply Forall_impl; [|exact Hin]; simpl; tauto).
  simpl. rewrite broadcast2_zip. simpl. unfold sqr. rewrite map_map. reflexivity.
Qed.

Lemma sq_diff_swap (phi : vec) (l : list (nat * nat)) :
  sum (map (sq_diff phi) (map swap l)) = sum (map (sq_diff phi) l).
Proof.
  induction l as [|[i j] l IH]; simpl; [reflexivity|].
  rewrite IH. unfold sq_diff. simpl. ring.
Qed.

Lemma sq_diff_self_loops (N : nat) (m : matrix) (phi : vec) :
  sum (map (sq_diff phi) (self_loops N m)) = 0.
Proof.
  assert (H : forall l, (forall p, In p l -> fst p = snd p) -> sum (map (sq_diff phi) l) = 0).
  { induction l as [|[i j] l IH]; intros Hl; simpl; [reflexivity|].
    rewrite IH by (intros p Hp; apply Hl; right; exact Hp).
    assert (E : i = j) by (apply (Hl (i, j)); left; reflexivity).
    subst. unfold sq_diff. simpl. ring. }
  apply H. intros [i j] Hp. apply in_self_loops in Hp. simpl. tauto.
Qed.

(** The directed sum is twice the sum over unordered pairs. *)
Lemma directed_sum_twice (N : nat) (m : matrix) (phi : vec) :
  square N m -> symmetric N m ->
  sum (map (sq_diff phi) (where_one m))
  = 2 * sum (map (sq_diff phi) (neighbor_pairs N m)).
Proof.
  intros Hsq Hsym.
  rewrite (sum_Permutation _ _
             (Permutation_map (sq_diff phi) (where_one_split N m Hsq Hsym))).
  rewrite !map_app, !sum_app, sq_diff_swap, (sq_diff_self_loops N m). ring.
Qed.

(** C1 (amended): on the edge lists extracted from a symmetric matrix,
    [pairwise_diff_leroux] equals [rho] times TWICE the conventional ICAR
    log-density (that is, minus [rho] times the sum over unordered pairs of
    the squared differences), and [icar_pairwise_diff] is the case
    [rho = 1]. *)
Theorem pairwise_diff_twice_conventional
    (rho : R) (N : nat) (m : matrix) (phi : vec) :
  length phi = N -> square N m -> symmetric N m ->
  pairwise_diff_leroux rho phi (node1 m) (node2 m)
    = Some (rho * (2 * icar_conventional N m phi))
  /\ icar_pairwise_diff phi (node1 m) (node2 m)
    = Some (2 * icar_conventional N m phi)
  /\ icar_pairwise_diff phi (node1 m) (node2 m)
    = pairwise_diff_leroux 1 phi (node1 m) (node2 m).
Proof.
  intros Hphi Hsq Hsym.
  pose proof (edge_squares N m phi Hphi Hsq) as E.
  rewrite (directed_sum_twice N m phi Hsq Hsym) in E.
  unfold pairwise_diff_leroux, icar_pairwise_diff, icar_conventional.
  destruct (take phi (node1 m)) as [a|]; simpl in *; [|discriminate].
  destruct (take phi (node2 m)) as [b|]; simpl in *; [|discriminate].
  destruct (broadcast2 Rminus a b) as [d|]; simpl in *; [|discriminate].
  inversion E as [E']. repeat split; f_equal; rewrite ?E'; ring.
Qed.

Lemma pairwise_diff_twice_conventional_witness :
  pairwise_diff_leroux 3 [0; 1] (node1 two_areas) (node2 two_areas)
    = Some (3 * (2 * icar_conventional 2 two_areas [0; 1]))
  /\ icar_pairwise_diff [0; 1] (node1 two_areas) (node2 two_areas)
    = Some (2 * icar_conventional 2 two_areas [0; 1])
  /\ icar_pairwise_diff [0; 1] (node1 two_areas) (node2 two_areas)
    = pairwise_diff_leroux 1 [0; 1] (node1 two_areas) (node2 two_areas).
Proof.
  exact (pairwise_diff_twice_conventional 3 2 two_areas [0; 1]
           eq_refl two_areas_square two_areas_symmetric).
Defined.

(** C1 as stated fails: for two mutually adjacent areas with effects 0 and
    1 and [rho = 1] the code gives -1, the conventional ICAR log-density
    scaled by [rho] is -0.5. *)
Lemma pairwise_diff_not_conventional :
  length [0; 1] = 2%nat /\ square 2 two_areas /\ symmetric 2 two_areas
  /\ pairwise_diff_leroux 1 [0; 1] (node1 two_areas) (node2 two_areas) = Some (-1)
  /\ icar_pairwise_diff [0; 1] (node1 two_areas) (node2 two_areas) = Some (-1)
  /\ 1 * icar_conventional 2 two_areas [0; 1] = -0.5
  /\ pairwise_diff_leroux 1 [0; 1] (node1 two_areas) (node2 two_areas)
     <> Some (1 * icar_conventional 2 two_areas [0; 1]).
Proof.
  assert (V : 1 * icar_conventional 2 two_areas [0; 1] = -0.5).
  { unfold icar_conventional, sq_diff. simpl. lra. }
  assert (P : pairwise_diff_leroux 1 [0; 1] (node1 two_areas) (node2 two_areas) = Some (-1)).
  { unfold pairwise_diff_leroux. simpl. f_equal. lra. }
  split; [reflexivity|]. split; [apply two_areas_square|].
  split; [apply two_areas_symmetric|]. split; [exact P|].
  split; [unfold icar_pairwise_diff; simpl; f_equal; lra|].
  split; [exact V|].
  rewrite P, V. intros H. inversion H. lra.
Qed.

End PairwisePotential.

(** ** The soft zero-sum constraint. *)

Section ZeroSum.

Import Numpy Pymc Models Reference.
Local Open Scope R_scope.

Lemma sqrt_small_pos : 0 < sqrt 0.001.
Proof. apply sqrt_lt_R0. lra. Qed.

(** The library's parameterisation by the standard deviation agrees with
    the density written with the variance. *)
Lemma normal_logp_logpdf (var x : R) :
  0 < var -> normal_logp 0 (sqrt var) x = normal_logpdf 0 var x.
Proof.
  intros Hv. unfold normal_logp, normal_logpdf, normal_pdf.
  pose proof (sqrt_lt_R0 var Hv) as Hs.
  pose proof PI_RGT_0 as Hpi.
  assert (H2pi : 0 < sqrt (2 * PI)) by (apply sqrt_lt_R0; lra).
  unfold Rdiv at 2.
  rewrite ln_mult by (try apply exp_pos; apply Rinv_0_lt_compat; apply sqrt_lt_R0; nra).
  rewrite ln_exp, ln_Rinv by (apply sqrt_lt_R0; nra).
  rewrite (sqrt_mult (2 * PI) var) by lra.
  rewrite ln_mult by assumption.
  assert (E : ((x - 0) / sqrt var) ^ 2 = (x - 0) ^ 2 / var).
  { rewrite <- (pow2_sqrt var) at 2 by lra. field. lra. }
  rewrite E. replace (-0.5) with (- (1 / 2)) by lra. field. lra.
Qed.

Lemma zero_sum_logpdf (v : vec) : zero_sum v = normal_logpdf 0 0.001 (sum v).
Proof. unfold zero_sum, zero_constraint. apply normal_logp_logpdf. lra. Qed.

(** C3: the latent vectors of the BYM model are [theta] and [phi], the one
    of the static Leroux model is [phi], those of the linear-time Leroux
    model are [phi] and [delta]; each of them has a potential of its own,
    equal to the log-density of Normal(0, variance 0.001) at the sum of the
    vector's entries. *)
Theorem every_latent_vector_zero_sum
    (node1 node2 : list Z)
    (pb : bym_point) (pl : leroux_point) (ps : st_leroux_point) :
  (free_vectors (bym_model node1 node2 pb)
     = [("theta"%string, bym_theta pb); ("phi"%string, bym_phi pb)]
   /\ lookup "zero_sum_theta" (potentials (bym_model node1 node2 pb))
      = Some (Some (normal_logpdf 0 0.001 (sum (bym_theta pb))))
   /\ lookup "zero_sum_phi" (potentials (bym_model node1 node2 pb))
      = Some (Some (normal_logpdf 0 0.001 (sum (bym_phi pb)))))
  /\ (free_vectors (leroux_model node1 node2 pl) = [("phi"%string, lx_phi pl)]
      /\ lookup "zero_sum_phi" (potentials (leroux_model node1 node2 pl))
         = Some (Some (normal_logpdf 0 0.001 (sum (lx_phi pl)))))
  /\ (free_vectors (st_leroux_model node1 node2 ps)
        = [("phi"%string, st_phi ps); ("delta"%string, st_delta ps)]
      /\ lookup "zero_sum_phi" (potentials (st_leroux_model node1 node2 ps))
         = Some (Some (normal_logpdf 0 0.001 (sum (st_phi ps))))
      /\ lookup "zero_sum_delta" (potentials (st_leroux_model node1 node2 ps))
         = Some (Some (normal_logpdf 0 0.001 (sum (st_delta ps))))).
Proof.
  repeat split; simpl; rewrite zero_sum_logpdf; reflexivity.
Qed.

(** C9: the zero-sum potential strictly decreases as a non-negative sum
    grows. *)
Theorem zero_sum_strictly_decreasing (phi phi' : vec) :
  0 <= sum phi < sum phi' -> zero_sum phi' < zero_sum phi.
Proof.
  intros [H0 Hlt]. unfold zero_sum, zero_constraint, normal_logp.
  pose proof sqrt_small_pos as Hs.
  set (s := sqrt 0.001) in *.
  assert (Hu : 0 <= (sum phi - 0) / s).
  { apply Rmult_le_pos; [lra | left; apply Rinv_0_lt_compat; exact Hs]. }
  assert (Huv : (sum phi - 0) / s < (sum phi' - 0) / s).
  { apply Rmult_lt_compat_r; [apply Rinv_0_lt_compat; exact Hs | lra]. }
  nra.
Qed.

Lemma zero_sum_strictly_decreasing_witness :
  zero_sum [0.5; 0.5] < zero_sum [0; 0].
Proof.
  apply (zero_sum_strictly_decreasing [0; 0] [0.5; 0.5]). simpl. lra.
Defined.

End ZeroSum.

(** ** The BYM linear predictor and likelihood. *)

Section BymPredictor.

Import Numpy Pymc Models Reference.
Local Open Scope R_scope.

Lemma broadcast2_same_length (f : R -> R -> R) (a b : vec) :
  length a = length b ->
  broadcast2 f a b = Some (map (fun q => f (fst q) (snd q)) (combine a b)).
Proof. intros H. unfold broadcast2. rewrite H, Nat.eqb_refl. reflexivity. Qed.

Lemma map_seq_nth {A : Type} (d : A) (l : list A) :
  l = map (fun i => nth i l d) (seq 0 (length l)).
Proof.
  apply (nth_ext _ _ d d).
  - rewrite length_map, length_seq. reflexivity.
  - intros i Hi.
    transitivity (nth i (map (fun i => nth i l d) (seq 0 (length l))) (nth 0%nat l d)).
    + rewrite (map_nth (fun i => nth i l d)), seq_nth by exact Hi. reflexivity.
    + apply nth_indep. rewrite length_map, length_seq. exact Hi.
Qed.

Lemma combine_map_same {A B C : Type} (f : A -> B) (g : A -> C) (l : list A) :
  combine (map f l) (map g l) = map (fun i => (f i, g i)) l.
Proof. induction l as [|i l IH]; simpl; [reflexivity | rewrite IH; reflexivity]. Qed.

Lemma indexed (N : nat) (l : vec) :
  length l = N -> l = map (fun i => nth i l 0) (seq 0 N).
Proof. intros <-. apply map_seq_nth. Qed.

Lemma nth_map_lt (g : R -> R) (l : vec) (i : nat) :
  (i < length l)%nat -> nth i (map g l) 0 = g (nth i l 0).
Proof.
  intros Hi. rewrite (nth_indep _ 0 (g 0)) by (rewrite length_map; exact Hi).
  apply map_nth.
Qed.

(** Adding a tensor of the same length to one given entry by entry. *)
Lemma broadcast2_indexed (f : R -> R -> R) (u : nat -> R) (b : vec) (N : nat) :
  length b = N ->
  broadcast2 f (map u (seq 0 N)) b
  = Some (map (fun i => f (u i) (nth i b 0)) (seq 0 N)).
Proof.
  intros H. set (b0 := b) at 1.
  assert (Eb : b0 = map (fun i => nth i b 0) (seq 0 N)) by (apply indexed; exact H).
  rewrite Eb. apply broadcast2_zip.
Qed.

(** The predictor tensor, entry by entry. *)
Lemma bym_eta_entries (N : nat) (logE x : vec) (p : bym_point) :
  length logE = N -> length x = N ->
  length (bym_phi p) = N -> length (bym_theta p) = N ->
  bym_eta logE x p = Some (map (bym_linear_predictor logE x p) (seq 0 N)).
Proof.
  intros HE Hx Hphi Hth. unfold bym_eta.
  assert (E : adds logE (bym_beta0 p)
              = map (fun i => nth i logE 0 + bym_beta0 p) (seq 0 N)).
  { unfold adds. rewrite <- (map_map (fun i => nth i logE 0) (fun v => v + bym_beta0 p)).
    f_equal. apply indexed. exact HE. }
  rewrite E.
  rewrite broadcast2_indexed by (unfold smul; rewrite length_map; exact Hx). simpl.
  rewrite broadcast2_indexed by (unfold smul; rewrite length_map; exact Hphi). simpl.
  rewrite broadcast2_indexed by exact Hth.
  f_equal. apply map_ext_in. intros i Hi. apply in_seq in Hi.
  unfold smul. rewrite !nth_map_lt by lia.
  unfold bym_linear_predictor, bym_sigma_phi. ring.
Qed.

(** C4: the BYM linear predictor of every area [i] is
    beta0 + beta1*x_i + logE_i + theta_i + sigma_phi*phi_i with
    sigma_phi = 1/sqrt(tau_phi); the Poisson rate of area [i] is its
    exponential, and the log-likelihood is the sum over the areas of the
    Poisson log-mass of [y_i] at that rate. *)
Theorem bym_linear_predictor_poisson
    (N : nat) (logE x : vec) (y : list nat) (p : bym_point) :
  length logE = N -> length x = N -> length y = N ->
  length (bym_phi p) = N -> length (bym_theta p) = N ->
  (exists eta mu,
      bym_eta logE x p = Some eta /\ bym_obs_rate logE x p = Some mu
      /\ length eta = N /\ length mu = N
      /\ forall i, (i < N)%nat ->
           nth i eta 0
           = bym_beta0 p + bym_beta1 p * nth i x 0 + nth i logE 0
             + nth i (bym_theta p) 0
             + 1 / sqrt (bym_tau_phi p) * nth i (bym_phi p) 0
           /\ nth i mu 0 = exp (nth i eta 0))
  /\ bym_obs_logp logE x y p
     = Some (sum (map (fun i => poisson_logp
                                  (exp (bym_linear_predictor logE x p i))
                                  (nth i y 0%nat))
                      (seq 0 N))).
Proof.
  intros HE Hx Hy Hphi Hth.
  pose proof (bym_eta_entries N logE x p HE Hx Hphi Hth) as Heta.
  split.
  - exists (map (bym_linear_predictor logE x p) (seq 0 N)).
    exists (map exp (map (bym_linear_predictor logE x p) (seq 0 N))).
    unfold bym_obs_rate. rewrite Heta. simpl.
    rewrite !length_map, length_seq. repeat split; auto.
    + rewrite (nth_indep _ 0 (bym_linear_predictor logE x p 0))
        by (rewrite length_map, length_seq; assumption).
      rewrite (map_nth (bym_linear_predictor logE x p)), seq_nth by assumption.
      reflexivity.
    + rewrite (nth_indep _ 0 (exp 0)) by (rewrite !length_map, length_seq; assumption).
      rewrite (map_nth exp). reflexivity.
  - unfold bym_obs_logp, bym_obs_rate. rewrite Heta. simpl.
    rewrite !length_map, length_seq, Hy, Nat.eqb_refl.
    rewrite (map_seq_nth 0%nat y) at 1. rewrite Hy.
    rewrite map_map, combine_map_same, map_map. reflexivity.
Qed.

Lemma bym_linear_predictor_poisson_witness :
  (exists eta mu,
      bym_eta [0; 1] [2; 3] bym_two_areas_point = Some eta
      /\ bym_obs_rate [0; 1] [2; 3] bym_two_areas_point = Some mu
      /\ length eta = 2%nat /\ length mu = 2%nat
      /\ forall i, (i < 2)%nat ->
           nth i eta 0
           = bym_beta0 bym_two_areas_point
             + bym_beta1 bym_two_areas_point * nth i [2; 3] 0 + nth i [0; 1] 0
             + nth i (bym_theta bym_two_areas_point) 0
             + 1 / sqrt (bym_tau_phi bym_two_areas_point)
               * nth i (bym_phi bym_two_areas_point) 0
           /\ nth i mu 0 = exp (nth i eta 0))
  /\ bym_obs_logp [0; 1] [2; 3] [9; 39]%nat bym_two_areas_point
     = Some (sum (map (fun i => poisson_logp
                                  (exp (bym_linear_predictor [0; 1] [2; 3]
                                          bym_two_areas_point i))
                                  (nth i [9; 39]%nat 0%nat))
                      (seq 0 2))).
Proof.
  exact (bym_linear_predictor_poisson 2 [0; 1] [2; 3] [9; 39]%nat
           bym_two_areas_point eq_refl eq_refl eq_refl eq_refl eq_refl).
Defined.

End BymPredictor.

(** ** The synthetic time axis. *)

Section TimeAxis.

Import PrimFloat Synthetic.
#[local] Set Warnings "-inexact-float".

(** C5 (amended): the time axis has T = 7 steps, with multipliers
    1 + 0.05*j for j = 0..6 up to rounding; the centred time index of every
    area is [-3, ..., 3], which is symmetric about zero and of width T; and
    without noise the Poisson rate for base count 10 is 10 times the
    multiplier. *)
Theorem synthetic_time_axis :
  multipler = Some [1; 1.05; 1.1; 1.1500000000000001;
                    1.2000000000000002; 1.2500000000000002;
                    1.3000000000000003]%float
  /\ T = Some 7%nat
  /\ (forall N, t_diff N 7 = repeat [-3; -2; -1; 0; 1; 2; 3]%Z N)
  /\ map Z.opp (rev (t_diff_row 7)) = t_diff_row 7
  /\ length (t_diff_row 7) = 7%nat
  /\ option_map (map (fun m => poisson_lam 10 m (random_slope 0))) multipler
     = option_map (map (fun m => (10 * m)%float)) multipler.
Proof.
  split; [vm_compute; reflexivity|].
  split; [vm_compute; reflexivity|].
  split; [intros N; reflexivity|].
  split; [reflexivity|].
  split; [reflexivity|].
  vm_compute; reflexivity.
Qed.

(** C5 as stated fails: the axis does not have five steps, and the time
    index is not [-3, -2, -1, 0, 1]. *)
Lemma time_axis_not_five_steps :
  T <> Some 5%nat
  /\ option_map t_diff_row T <> Some [-3; -2; -1; 0; 1]%Z
  /\ map Z.opp (rev [-3; -2; -1; 0; 1]%Z) <> [-3; -2; -1; 0; 1]%Z.
Proof.
  assert (E : T = Some 7%nat) by (vm_compute; reflexivity).
  rewrite E. repeat split; discriminate.
Qed.

End TimeAxis.

(** ** Parsing the neighbour strings. *)

Section Parsing.

Import PyStr Adjacency Reference.

Lemma mapM_some_all {A B : Type} (f : A -> option B) (l : list A) (r : list B) :
  mapM f l = Some r -> forall a, In a l -> exists b, f a = Some b.
Proof.
  revert r. induction l as [|x l IH]; simpl; intros r H a Ha; [contradiction|].
  destruct (f x) as [b|] eqn:E; simpl in H; [|discriminate].
  destruct (mapM f l) as [bs|]; simpl in H; [|discriminate].
  destruct Ha as [<-|Ha]; [exists b; exact E | exact (IH bs eq_refl a Ha)].
Qed.

Lemma split_nonempty (sep : ascii) (s : chars) : split sep s <> [].
Proof.
  destruct s as [|c r]; simpl; [discriminate|].
  destruct (Ascii.eqb c sep); [discriminate|].
  destruct (split sep r); discriminate.
Qed.

(** What [int] accepts is made of digits, underscores and whitespace after
    the sign, and holds a digit. *)
Lemma scan_digits_chars (s : chars) (prev_us seen : bool) (acc v : Z) :
  scan_digits s prev_us seen acc = Some v ->
  forall c, In c s -> non_numeric_char c = false.
Proof.
  revert prev_us seen acc. induction s as [|d r IH]; simpl; intros pu sn acc H c Hc;
    [contradiction|].
  destruct (is_digit d) eqn:Ed.
  - destruct Hc as [<-|Hc]; [|exact (IH _ _ _ H c Hc)].
    unfold non_numeric_char. rewrite Ed. reflexivity.
  - destruct (Ascii.eqb_spec d "_"%char) as [->|Hd].
    + destruct (sn && negb pu); [|discriminate].
      destruct Hc as [<-|Hc]; [reflexivity | exact (IH _ _ _ H c Hc)].
    + destruct (sn && negb pu); simpl in H; [|discriminate].
      destruct (is_space d) eqn:Es; simpl in H; [|discriminate].
      destruct (forallb is_space r) eqn:Er; [|discriminate].
      assert (Hsp : is_space c = true).
      { destruct Hc as [<-|Hc]; [exact Es|].
        rewrite forallb_forall in Er. exact (Er c Hc). }
      unfold non_numeric_char. rewrite Hsp. rewrite orb_true_r. reflexivity.
Qed.

Lemma scan_digits_digit (s : chars) (prev_us seen : bool) (acc v : Z) :
  scan_digits s prev_us seen acc = Some v ->
  seen = true \/ existsb is_digit s = true.
Proof.
  revert prev_us seen acc. induction s as [|d r IH]; simpl; intros pu sn acc H.
  - destruct sn; [left; reflexivity | discriminate].
  - destruct (is_digit d); [right; reflexivity|]. simpl.
    destruct (Ascii.eqb d "_"%char).
    + destruct sn; simpl in H; [left; reflexivity | discriminate].
    + destruct sn; simpl in H; [left; reflexivity | discriminate].
Qed.

Lemma drop_space_chars (s : chars) (c : ascii) :
  In c s -> is_space c = true \/ In c (drop_space s).
Proof.
  induction s as [|d r IH]; simpl; [tauto|].
  destruct (is_space d) eqn:Ed.
  - intros [<-|Hc]; [left; exact Ed | exact (IH Hc)].
  - intros Hc. right. exact Hc.
Qed.

Lemma drop_space_digit (s : chars) :
  existsb is_digit (drop_space s) = true -> existsb is_digit s = true.
Proof.
  induction s as [|d r IH]; simpl; [auto|].
  destruct (is_space d); [|auto].
  intros H. rewrite (IH H). apply orb_true_r.
Qed.

Lemma int_of_chars_numeric (t : chars) (v : Z) :
  int_of_chars t = Some v -> non_numeric t = false.
Proof.
  unfold int_of_chars, non_numeric. intros H.
  assert (Hs : exists r w,
             scan_digits r false false 0%Z = Some w
             /\ (forall c, In c (drop_space t) ->
                           In c r \/ c = "+"%char \/ c = "-"%char)
             /\ (existsb is_digit r = true -> existsb is_digit (drop_space t) = true)).
  { destruct (drop_space t) as [|d r] eqn:E.
    - exists [], v. split; [exact H|]. split; [tauto | auto].
    - destruct (Ascii.eqb_spec d "+"%char) as [->|Hp].
      + exists r, v. split; [exact H|]. split.
        * intros c [<-|Hc]; auto.
        * intros Hd. simpl. exact Hd.
      + destruct (Ascii.eqb_spec d "-"%char) as [->|Hm].
        * destruct (scan_digits r false false 0%Z) as [w|] eqn:Ew; [|discriminate].
          exists r, w. split; [exact Ew|]. split.
          -- intros c [<-|Hc]; auto.
          -- intros Hd. simpl. exact Hd.
        * exists (d :: r), v. split.
          -- destruct d as [[] [] [] [] [] [] [] []]; try exact H;
               exfalso; first [apply Hp; reflexivity | apply Hm; reflexivity].
          -- split; [intros c Hc; left; exact Hc | auto]. }
  destruct Hs as (r & w & Hscan & Hchars & Hdig).
  apply orb_false_intro.
  - destruct (existsb non_numeric_char t) eqn:E; [|reflexivity].
    apply existsb_exists in E. destruct E as (c & Hc & Hn).
    destruct (drop_space_chars t c Hc) as [Hsp | Hin].
    + unfold non_numeric_char in Hn. rewrite Hsp, orb_true_r in Hn. discriminate.
    + destruct (Hchars c Hin) as [Hr | [-> | ->]]; try discriminate.
      rewrite (scan_digits_chars _ _ _ _ _ Hscan c Hr) in Hn. discriminate.
  - destruct (scan_digits_digit _ _ _ _ _ Hscan) as [Hf | Hd]; [discriminate|].
    rewrite (drop_space_digit t (Hdig Hd)). reflexivity.
Qed.

Lemma lstrip_all (set l s : chars) :
  forallb (fun c => mem c set) l = true -> lstrip set (l ++ s) = lstrip set s.
Proof.
  induction l as [|c l IH]; simpl; [reflexivity|].
  intros H. apply andb_true_iff in H. destruct H as [Hc Hl].
  rewrite Hc. exact (IH Hl).
Qed.

Lemma lstrip_app (set s r : chars) :
  lstrip set (s ++ r)
  = match lstrip set s with
    | [] => lstrip set r
    | t => t ++ r
    end.
Proof.
  induction s as [|c s IH]; simpl; [destruct (lstrip set r); reflexivity|].
  destruct (mem c set); [exact IH | reflexivity].
Qed.

Lemma lstrip_all_nil (set l : chars) :
  forallb (fun c => mem c set) l = true -> lstrip set l = [].
Proof.
  intros H. rewrite <- (app_nil_r l). rewrite (lstrip_all set l [] H). reflexivity.
Qed.

Lemma rstrip_all (set s r : chars) :
  forallb (fun c => mem c set) r = true -> rstrip set (s ++ r) = rstrip set s.
Proof.
  intros H. unfold rstrip. rewrite rev_app_distr, lstrip_all; [reflexivity|].
  rewrite forallb_forall in *. intros c Hc. apply H. apply in_rev. exact Hc.
Qed.

(** Brackets around a string, however many and in whatever order, are
    stripped. *)
Lemma strip_brackets (set l s r : chars) :
  forallb (fun c => mem c set) l = true ->
  forallb (fun c => mem c set) r = true ->
  strip set (l ++ s ++ r) = strip set s.
Proof.
  intros Hl Hr. unfold strip. rewrite (lstrip_all set l _ Hl), lstrip_app.
  destruct (lstrip set s) as [|c t] eqn:E.
  - rewrite (lstrip_all_nil set r Hr). reflexivity.
  - apply rstrip_all. exact Hr.
Qed.

Lemma list_ascii_of_string_app (a b : string) :
  list_ascii_of_string (a ++ b)
  = list_ascii_of_string a ++ list_ascii_of_string b.
Proof. induction a as [|c a IH]; simpl; [reflexivity | rewrite IH; reflexivity]. Qed.

(** C8 (amended): a neighbour string with a non-numeric token makes the
    parsing step fail, and no string is ever parsed to the empty list; the
    brackets at both ends are stripped without being matched, so adding or
    removing outer brackets does not change the result. *)
Theorem parse_adj_failure (x : string) :
  (has_non_numeric_token x = true -> parse_adj x = None)
  /\ parse_adj x <> Some []
  /\ (forall l r : string,
        brackets_only l = true -> brackets_only r = true ->
        parse_adj (l ++ x ++ r) = parse_adj x).
Proof.
  split; [|split].
  - unfold has_non_numeric_token, tokens, parse_adj. intros H.
    apply existsb_exists in H. destruct H as (t & Ht & Hn).
    destruct (mapM int_of_chars _) as [vs|] eqn:E; [|reflexivity].
    destruct (mapM_some_all _ _ _ E t Ht) as (v & Hv).
    rewrite (int_of_chars_numeric t v Hv) in Hn. discriminate.
  - unfold parse_adj. intros H. apply mapM_length in H. simpl in H.
    symmetry in H. apply length_zero_iff_nil in H.
    exact (split_nonempty _ _ H).
  - intros l r Hl Hr. unfold parse_adj.
    rewrite !list_ascii_of_string_app, (strip_brackets _ _ _ _ Hl Hr). reflexivity.
Qed.

Lemma parse_adj_failure_witness :
  parse_adj "[2,x]" = None
  /\ parse_adj "[[2,3]" = parse_adj "2,3".
Proof.
  split.
  - apply (proj1 (parse_adj_failure "[2,x]")). reflexivity.
  - apply (proj2 (proj2 (parse_adj_failure "2,3")) "[[" "]")%string; reflexivity.
Defined.

(** C8 as stated fails: a string with an unbalanced bracket is parsed
    without any error. *)
Lemma unbalanced_brackets_accepted :
  malformed "[1,2" = true
  /\ brackets_balanced "[1,2" = false
  /\ parse_adj "[1,2" = Some [1; 2]%Z
  /\ parse_adj "[1,2" <> None.
Proof. repeat split; discriminate. Qed.

End Parsing.

(** ** Building the adjacency matrix. *)

Section MatrixConstruction.

Import Numpy Adjacency.
Local Open Scope nat_scope.

Lemma length_set_nth {A : Type} (l : list A) (j : nat) (v : A) :
  length (set_nth l j v) = length l.
Proof.
  revert j. induction l as [|h t IH]; intros [|j]; simpl; auto.
Qed.

Lemma nth_set_nth_same {A : Type} (l : list A) (j : nat) (v d : A) :
  j < length l -> nth j (set_nth l j v) d = v.
Proof.
  revert j. induction l as [|h t IH]; intros [|j]; simpl; intros H; try lia; auto.
  apply IH. lia.
Qed.

Lemma nth_set_nth_other {A : Type} (l : list A) (i j : nat) (v d : A) :
  i <> j -> nth i (set_nth l j v) d = nth i l d.
Proof.
  revert i j. induction l as [|h t IH]; intros [|i] [|j]; simpl; intros H;
    try reflexivity; try lia.
  apply IH. lia.
Qed.

Lemma norm_index_bound (n : nat) (k : Z) (j : nat) :
  norm_index n k = Some j -> j < n.
Proof.
  unfold norm_index.
  destruct (Z.leb_spec 0 k); destruct (Z.ltb_spec k (Z.of_nat n)); simpl;
    try (intros Eq; inversion Eq; lia);
    destruct (Z.leb_spec (- Z.of_nat n) k); destruct (Z.ltb_spec k 0); simpl;
    intros Eq; inversion Eq; lia.
Qed.

Lemma mapM_in {A B : Type} (f : A -> option B) (l : list A) (r : list B) :
  mapM f l = Some r ->
  forall b, In b r <-> exists a, In a l /\ f a = Some b.
Proof.
  revert r. induction l as [|x l IH]; simpl; intros r H b.
  - inversion H. simpl. split; [tauto | intros (a & [] & _)].
  - destruct (f x) as [y|] eqn:E; simpl in H; [|discriminate].
    destruct (mapM f l) as [ys|]; simpl in H; [|discriminate].
    inversion H. subst. simpl. rewrite (IH ys eq_refl b). split.
    + intros [<- | (a & Ha & Hf)]; [exists x; auto | exists a; auto].
    + intros (a & [<- | Ha] & Hf); [left; congruence | right; exists a; auto].
Qed.

(** Setting a list of in-range cells to one. *)
Lemma set_ones_nth (cols : list nat) (row : list Z) (j : nat) :
  (forall c, In c cols -> c < length row) ->
  length (fold_left (fun r c => set_nth r c 1%Z) cols row) = length row
  /\ (In j cols -> nth j (fold_left (fun r c => set_nth r c 1%Z) cols row) 0%Z = 1%Z)
  /\ (~ In j cols ->
      nth j (fold_left (fun r c => set_nth r c 1%Z) cols row) 0%Z = nth j row 0%Z).
Proof.
  revert row. induction cols as [|c cols IH]; simpl; intros row Hc.
  - tauto.
  - assert (Hc' : forall c', In c' cols -> c' < length (set_nth row c 1%Z)).
    { intros c' H'. rewrite length_set_nth. auto. }
    destruct (IH (set_nth row c 1%Z) Hc') as (Hl & Hin & Hout).
    rewrite length_set_nth in Hl. split; [exact Hl|]. split.
    + intros [-> | Hj].
      * destruct (in_dec Nat.eq_dec j cols) as [Hj | Hj]; [auto|].
        rewrite (Hout Hj). apply nth_set_nth_same. auto.
      * auto.
    + intros Hn. rewrite Hout by tauto. apply nth_set_nth_other. intros ->. tauto.
Qed.

(** The row written for one area. *)
Lemma assign_ones_spec (row row' : list Z) (idx : list Z) :
  assign_ones row idx = Some row' ->
  length row' = length row
  /\ forall j,
       ((exists k, In k idx /\ norm_index (length row) k = Some j) ->
        nth j row' 0%Z = 1%Z)
       /\ (~ (exists k, In k idx /\ norm_index (length row) k = Some j) ->
           nth j row' 0%Z = nth j row 0%Z).
Proof.
  unfold assign_ones.
  destruct (mapM (norm_index (length row)) idx) as [cols|] eqn:E; simpl; [|discriminate].
  intros H. inversion H as [H']. clear H.
  assert (Hc : forall c, In c cols -> c < length row).
  { intros c Hc. apply (mapM_in _ _ _ E) in Hc. destruct Hc as (k & _ & Hk).
    exact (norm_index_bound _ _ _ Hk). }
  split; [apply (set_ones_nth cols row 0 Hc)|].
  intros j. destruct (set_ones_nth cols row j Hc) as (_ & Hin & Hout).
  rewrite <- (mapM_in _ _ _ E j). auto.
Qed.

(** The loop over the areas: a row is rewritten when its area is visited,
    and only then. *)
Lemma assign_areas_spec (adj : list (list Z)) (areas : list nat) :
  NoDup areas ->
  forall m m', assign_areas adj m areas = Some m' ->
  length m' = length m
  /\ forall i,
       (In i areas ->
        exists row', assign_ones (nth i m []) (nth i adj []) = Some row'
                     /\ i < length m /\ nth i m' [] = row')
       /\ (~ In i areas -> nth i m' [] = nth i m []).
Proof.
  induction 1 as [|a areas Ha Hnd IH]; simpl; intros m m' H.
  - inversion H. subst. split; [reflexivity|]. intros i. tauto.
  - unfold assign_area in H.
    destruct (nth_error adj a) as [nb|] eqn:Enb; simpl in H; [|discriminate].
    destruct (nth_error m a) as [row|] eqn:Erow; simpl in H; [|discriminate].
    destruct (assign_ones row nb) as [row'|] eqn:Eas; simpl in H; [|discriminate].
    destruct (IH _ _ H) as (Hl & Hi).
    rewrite length_set_nth in Hl.
    assert (Hlt : a < length m) by (apply nth_error_Some; congruence).
    split; [exact Hl|]. intros i. split.
    + intros [<- | Hin].
      * exists row'. rewrite (nth_error_nth _ _ [] Enb), (nth_error_nth _ _ [] Erow).
        split; [exact Eas|]. split; [exact Hlt|].
        rewrite (proj2 (Hi a) Ha). apply nth_set_nth_same. exact Hlt.
      * destruct (proj1 (Hi i) Hin) as (r' & Hr' & Hlen & Hn).
        assert (Hia : i <> a) by (intros ->; tauto).
        rewrite nth_set_nth_other in Hr' by exact Hia.
        rewrite length_set_nth in Hlen. exists r'. auto.
    + intros Hn. rewrite (proj2 (Hi i)) by tauto.
      apply nth_set_nth_other. intros ->. tauto.
Qed.

Lemma nth_zeros_row (N i : nat) : i < N -> nth i (zeros N N) [] = repeat 0%Z N.
Proof.
  intros Hi. unfold zeros.
  rewrite (nth_indep _ [] (repeat 0%Z N)) by (rewrite repeat_length; exact Hi).
  apply nth_repeat.
Qed.

Lemma nth_repeat_zero (N j : nat) : nth j (repeat 0%Z N) 0%Z = 0%Z.
Proof.
  destruct (Nat.lt_ge_cases j N) as [H|H].
  - apply nth_repeat.
  - apply nth_overflow. rewrite repeat_length. exact H.
Qed.

(** Whether an area is listed can be decided by inspecting the list. *)
Lemma classic_listed (N : nat) (adj : list (list Z)) (i j : nat) :
  listed N adj i j \/ ~ listed N adj i j.
Proof.
  unfold listed. induction (nth i adj []) as [|k l IH].
  - right. intros (k & [] & _).
  - destruct IH as [(k' & Hk' & E) | Hn].
    + left. exists k'. split; [right; exact Hk' | exact E].
    + destruct (norm_index N k) as [j'|] eqn:E.
      * destruct (Nat.eq_dec j' j) as [-> | Hne].
        -- left. exists k. split; [left; reflexivity | exact E].
        -- right. intros (k' & [<- | Hk'] & E'); [congruence|].
           apply Hn. exists k'. auto.
      * right. intros (k' & [<- | Hk'] & E'); [congruence|].
        apply Hn. exists k'. auto.
Qed.

(** The matrix that the loop produces: cell (i, j) is one when [j] is
    listed for area [i], and zero otherwise. *)
Lemma build_adj_matrix_entries (N : nat) (adj : list (list Z)) (m : matrix) :
  build_adj_matrix N adj = Some m ->
  length m = N
  /\ forall i, i < N ->
       length (nth i m []) = N
       /\ forall j, (listed N adj i j -> entry m i j = 1%Z)
                    /\ (~ listed N adj i j -> entry m i j = 0%Z).
Proof.
  unfold build_adj_matrix. intros H.
  destruct (assign_areas_spec adj (seq 0 N) (seq_NoDup N 0) _ _ H) as (Hl & Hi).
  unfold zeros in Hl. rewrite repeat_length in Hl.
  split; [exact Hl|]. intros i HiN.
  destruct (proj1 (Hi i)) as (row' & Has & _ & Hrow); [apply in_seq; lia|].
  rewrite (nth_zeros_row N i HiN) in Has.
  destruct (assign_ones_spec _ _ _ Has) as (Hlen & Hj).
  rewrite repeat_length in Hlen, Hj. unfold entry. rewrite Hrow.
  split; [exact Hlen|]. intros j. unfold listed. split.
  - exact (proj1 (Hj j)).
  - intros Hn. rewrite (proj2 (Hj j) Hn). apply nth_repeat_zero.
Qed.

Lemma build_adj_matrix_square (N : nat) (adj : list (list Z)) (m : matrix) :
  build_adj_matrix N adj = Some m -> square N m.
Proof.
  intros H. destruct (build_adj_matrix_entries N adj m H) as (Hl & Hi).
  split; [exact Hl|]. apply Forall_forall. intros r Hr.
  destruct (In_nth _ _ [] Hr) as (i & Hlt & <-). apply Hi. lia.
Qed.

Lemma build_adj_matrix_binary (N : nat) (adj : list (list Z)) (m : matrix) (i j : nat) :
  build_adj_matrix N adj = Some m -> i < N ->
  (entry m i j = 1%Z <-> listed N adj i j)
  /\ (entry m i j = 0%Z \/ entry m i j = 1%Z).
Proof.
  intros H Hi. destruct (build_adj_matrix_entries N adj m H) as (_ & Hrows).
  destruct (Hrows i Hi) as (_ & Hj). destruct (Hj j) as (H1 & H0).
  split.
  - split; [|exact H1]. intros He.
    destruct (classic_listed N adj i j) as [Hy | Hn]; [exact Hy|].
    rewrite (H0 Hn) in He. discriminate.
  - destruct (classic_listed N adj i j) as [Hy | Hn]; [right; auto | left; auto].
Qed.

(** C7 as stated fails: when area 1 is listed for area 0 but area 0 is not
    listed for area 1, the matrix has a one in cell (0, 1) and a zero in
    cell (1, 0). *)
Lemma one_sided_listing_not_symmetric :
  load_adjacency ["[2]"; "[2]"]%string = Some [[0; 1]; [0; 1]]%Z
  /\ entry [[0; 1]; [0; 1]]%Z 0 1 = 1%Z
  /\ entry [[0; 1]; [0; 1]]%Z 1 0 = 0%Z
  /\ ~ symmetric 2 [[0; 1]; [0; 1]]%Z.
Proof.
  repeat split.
  intros H. specialize (H 0 1). simpl in H. assert (E : 1%Z = 0%Z) by (apply H; lia).
  discriminate.
Qed.

End MatrixConstruction.

(** ** Algebra of the potential functions. *)

Section PotentialAlgebra.

Import Numpy Potentials.
Local Open Scope R_scope.

Lemma sum_sqr_nonneg (d : vec) : 0 <= sum (sqr d).
Proof.
  induction d as [|x d IH]; simpl; [lra|].
  pose proof (pow2_ge_0 x). lra.
Qed.

Lemma getitem_in_range (phi : vec) (k : Z) (v : R) :
  getitem phi k = Some v -> in_range (length phi) k.
Proof.
  unfold getitem, norm_index, in_range.
  destruct (Z.leb_spec 0 k); destruct (Z.ltb_spec k (Z.of_nat (length phi)));
    destruct (Z.leb_spec (- Z.of_nat (length phi)) k); destruct (Z.ltb_spec k 0);
    simpl; intros E; try discriminate; lia.
Qed.

Lemma take_in_range (phi : vec) (idx : list Z) (a : vec) :
  take phi idx = Some a -> Forall (in_range (length phi)) idx.
Proof.
  unfold take. intros H. apply Forall_forall. intros k Hk.
  destruct (mapM_some_all _ _ _ H k Hk) as (v & Hv).
  exact (getitem_in_range phi k v Hv).
Qed.

Lemma getitem_map (g : R -> R) (phi : vec) (k : Z) :
  getitem (map g phi) k = option_map g (getitem phi k).
Proof.
  unfold getitem. rewrite length_map.
  destruct (norm_index (length phi) k) as [i|]; simpl; [|reflexivity].
  apply nth_error_map.
Qed.

Lemma take_map (g : R -> R) (phi : vec) (idx : list Z) :
  take (map g phi) idx = option_map (map g) (take phi idx).
Proof.
  unfold take. induction idx as [|k idx IH]; simpl; [reflexivity|].
  rewrite getitem_map, IH.
  destruct (getitem phi k); simpl; [|reflexivity].
  destruct (mapM (getitem phi) idx); reflexivity.
Qed.

(** Whether two shapes can be combined. *)
Lemma broadcast2_defined (f : R -> R -> R) (a b : vec) :
  (exists d, broadcast2 f a b = Some d)
  <-> (length a = length b \/ length a = 1%nat \/ length b = 1%nat).
Proof.
  unfold broadcast2. destruct (Nat.eqb_spec (length a) (length b)) as [E|E].
  - split; [auto | eauto].
  - destruct a as [|x [|x' a]], b as [|y [|y' b]]; simpl in *;
      (split; [intros (d & Hd); try discriminate; auto
              | intros [H | [H | H]]; try discriminate; try lia; eauto]).
Qed.

Lemma combine_swap_minus (a b : vec) :
  map (fun p => fst p - snd p) (combine b a)
  = map Ropp (map (fun p => fst p - snd p) (combine a b)).
Proof.
  revert b. induction a as [|x a IH]; intros [|y b]; simpl; try reflexivity.
  rewrite IH. f_equal. ring.
Qed.

Lemma broadcast2_minus_swap (a b : vec) :
  broadcast2 Rminus b a = option_map (map Ropp) (broadcast2 Rminus a b).
Proof.
  unfold broadcast2. rewrite (Nat.eqb_sym (length b) (length a)).
  destruct (Nat.eqb (length a) (length b)) eqn:E.
  - simpl. f_equal. apply combine_swap_minus.
  - destruct a as [|x [|x' a]], b as [|y [|y' b]]; simpl in *;
      try discriminate; try reflexivity;
      f_equal; rewrite ?map_map;
      repeat (match goal with |- _ :: _ = _ :: _ => f_equal; try ring end);
      try reflexivity; apply map_ext; intros; ring.
Qed.

Lemma sum_sqr_opp (d : vec) : sum (sqr (map Ropp d)) = sum (sqr d).
Proof.
  induction d as [|x d IH]; simpl; [reflexivity|]. rewrite IH. ring.
Qed.

Lemma broadcast2_minus_scale (c : R) (a b : vec) :
  broadcast2 Rminus (smul c a) (smul c b)
  = option_map (smul c) (broadcast2 Rminus a b).
Proof.
  unfold broadcast2, smul. rewrite !length_map.
  destruct (Nat.eqb (length a) (length b)).
  - simpl. f_equal. revert b.
    induction a as [|x a IH]; intros [|y b]; simpl; try reflexivity.
    rewrite IH. f_equal. ring.
  - destruct a as [|x [|x' a]], b as [|y [|y' b]]; simpl; try reflexivity;
      f_equal; rewrite ?map_map;
      repeat (match goal with |- _ :: _ = _ :: _ => f_equal; try ring end);
      try reflexivity; apply map_ext; intros; ring.
Qed.

Lemma sum_sqr_scale (c : R) (d : vec) : sum (sqr (smul c d)) = c ^ 2 * sum (sqr d).
Proof.
  induction d as [|x d IH]; simpl; [ring|]. rewrite IH. ring.
Qed.

(** X1: the Leroux prior interpolates between its two endpoints: for every
    input the pairwise term is [rho] times the ICAR potential (and raises
    exactly when that one raises), and the ridge term is [1 - rho] times the
    ridge term at [rho = 0]. *)
Theorem leroux_interpolation (rho : R) (phi : vec) (node1 node2 : list Z) :
  pairwise_diff_leroux rho phi node1 node2
    = option_map (fun v => rho * v) (icar_pairwise_diff phi node1 node2)
  /\ square_sum rho phi = (1 - rho) * square_sum 0 phi.
Proof.
  split.
  - unfold pairwise_diff_leroux, icar_pairwise_diff.
    destruct (take phi node1) as [a|]; simpl; [|reflexivity].
    destruct (take phi node2) as [b|]; simpl; [|reflexivity].
    destruct (broadcast2 Rminus a b) as [d|]; simpl; [|reflexivity].
    f_equal. ring.
  - unfold square_sum. ring.
Qed.

(** X2: for a mixing parameter in [0, 1] neither Leroux term is ever
    positive. *)
Theorem leroux_terms_nonpositive (rho : R) (phi : vec) (node1 node2 : list Z) :
  0 <= rho <= 1 ->
  square_sum rho phi <= 0
  /\ forall v, pairwise_diff_leroux rho phi node1 node2 = Some v -> v <= 0.
Proof.
  intros [H0 H1]. split.
  - unfold square_sum. pose proof (sum_sqr_nonneg phi). nra.
  - unfold pairwise_diff_leroux. intros v.
    destruct (take phi node1) as [a|]; simpl; [|discriminate].
    destruct (take phi node2) as [b|]; simpl; [|discriminate].
    destruct (broadcast2 Rminus a b) as [d|]; simpl; [|discriminate].
    intros E. inversion E. pose proof (sum_sqr_nonneg d). nra.
Qed.

Lemma leroux_terms_nonpositive_witness :
  square_sum 0.5 [1; 2] <= 0
  /\ forall v, pairwise_diff_leroux 0.5 [1; 2] [0]%Z [1]%Z = Some v -> v <= 0.
Proof.
  apply (leroux_terms_nonpositive 0.5 [1; 2] [0]%Z [1]%Z). lra.
Defined.

(** X3: the direction of the edges does not matter: exchanging the two edge
    lists leaves both pairwise potentials unchanged, errors included. *)
Theorem pairwise_diff_edge_direction (rho : R) (phi : vec) (node1 node2 : list Z) :
  pairwise_diff_leroux rho phi node2 node1 = pairwise_diff_leroux rho phi node1 node2
  /\ icar_pairwise_diff phi node2 node1 = icar_pairwise_diff phi node1 node2.
Proof.
  unfold pairwise_diff_leroux, icar_pairwise_diff.
  destruct (take phi node1) as [a|]; destruct (take phi node2) as [b|]; simpl;
    try (split; reflexivity).
  rewrite (broadcast2_minus_swap a b).
  destruct (broadcast2 Rminus a b) as [d|]; simpl; [|split; reflexivity].
  rewrite sum_sqr_opp. split; reflexivity.
Qed.

(** X4: on index arrays of signed 64-bit integers the pairwise potential
    returns a number exactly when every index of both edge lists lies in
    [-len(phi), len(phi)) and the two lists have the same length or one of
    them has length one; otherwise it raises. *)
Theorem pairwise_diff_defined_iff (rho : R) (phi : vec) (node1 node2 : list Z) :
  Forall fits_intp node1 -> Forall fits_intp node2 ->
  ((exists v, pairwise_diff_leroux rho phi node1 node2 = Some v)
   <-> (Forall (in_range (length phi)) node1
        /\ Forall (in_range (length phi)) node2
        /\ (length node1 = length node2
            \/ length node1 = 1%nat \/ length node2 = 1%nat))).
Proof.
  intros _ _. unfold pairwise_diff_leroux. split.
  - intros (v & H).
    destruct (take phi node1) as [a|] eqn:Ea; simpl in H; [|discriminate].
    destruct (take phi node2) as [b|] eqn:Eb; simpl in H; [|discriminate].
    destruct (broadcast2 Rminus a b) as [d|] eqn:Ed; simpl in H; [|discriminate].
    split; [exact (take_in_range _ _ _ Ea)|]. split; [exact (take_in_range _ _ _ Eb)|].
    rewrite <- (mapM_length _ _ _ Ea), <- (mapM_length _ _ _ Eb).
    apply (broadcast2_defined Rminus). eauto.
  - intros (H1 & H2 & Hs).
    destruct (take_defined phi node1 H1) as (a & -> & Ha).
    destruct (take_defined phi node2 H2) as (b & -> & Hb). simpl.
    rewrite <- Ha, <- Hb in Hs.
    apply (broadcast2_defined Rminus) in Hs. destruct Hs as (d & ->). simpl. eauto.
Qed.

Lemma pairwise_diff_defined_iff_witness :
  (exists v, pairwise_diff_leroux 1 [0; 1] [0; -1]%Z [1; 0]%Z = Some v)
  <-> (Forall (in_range (length [0; 1])) [0; -1]%Z
       /\ Forall (in_range (length [0; 1])) [1; 0]%Z
       /\ (length [0; -1]%Z = length [1; 0]%Z
           \/ length [0; -1]%Z = 1%nat \/ length [1; 0]%Z = 1%nat)).
Proof.
  apply (pairwise_diff_defined_iff 1 [0; 1] [0; -1]%Z [1; 0]%Z);
    repeat constructor; unfold fits_intp; lia.
Defined.

(** X5: both Leroux terms are homogeneous of degree two: scaling the vector
    by [c] scales them by [c]^2 (so a change of sign changes nothing). *)
Theorem leroux_terms_homogeneous (rho c : R) (phi : vec) (node1 node2 : list Z) :
  pairwise_diff_leroux rho (smul c phi) node1 node2
    = option_map (fun v => c ^ 2 * v) (pairwise_diff_leroux rho phi node1 node2)
  /\ square_sum rho (smul c phi) = c ^ 2 * square_sum rho phi.
Proof.
  split.
  - unfold pairwise_diff_leroux. unfold smul at 1 2. rewrite !take_map.
    destruct (take phi node1) as [a|]; simpl; [|reflexivity].
    destruct (take phi node2) as [b|]; simpl; [|reflexivity].
    fold (smul c a). fold (smul c b). rewrite broadcast2_minus_scale.
    destruct (broadcast2 Rminus a b) as [d|]; simpl; [|reflexivity].
    rewrite sum_sqr_scale. f_equal. ring.
  - unfold square_sum. rewrite sum_sqr_scale. ring.
Qed.

End PotentialAlgebra.

(** ** The shape of the zero-sum penalty. *)

Section ZeroSumPenalty.

Import Numpy Pymc Models.
Local Open Scope R_scope.

Lemma sum_adds (phi : vec) (c : R) :
  sum (adds phi c) = sum phi + INR (length phi) * c.
Proof.
  induction phi as [|x phi IH].
  - simpl. ring.
  - change (sum (adds (x :: phi) c)) with (x + c + sum (adds phi c)).
    change (sum (x :: phi)) with (x + sum phi).
    change (length (x :: phi)) with (S (length phi)).
    rewrite IH, S_INR. ring.
Qed.

Lemma zero_constraint_drop (t : R) :
  zero_constraint t = zero_constraint 0 - 500 * t ^ 2.
Proof.
  unfold zero_constraint, normal_logp.
  assert (E : forall u, ((u - 0) / sqrt 0.001) ^ 2 = 1000 * u ^ 2).
  { intros u. pose proof sqrt_small_pos as Hs.
    replace (((u - 0) / sqrt 0.001) ^ 2) with (u ^ 2 / (sqrt 0.001 ^ 2))
      by (field; lra).
    rewrite pow2_sqrt by lra. lra. }
  rewrite (E t), (E 0). lra.
Qed.

(** X6: the zero-sum potential is a quadratic penalty on the sum: its value
    at [s] is its value at zero minus 500 [s]^2; it is therefore even and
    largest at [s = 0]. *)
Theorem zero_constraint_quadratic (s : R) :
  zero_constraint s = zero_constraint 0 - 500 * s ^ 2
  /\ zero_constraint (- s) = zero_constraint s
  /\ zero_constraint s <= zero_constraint 0.
Proof.
  split; [apply zero_constraint_drop|]. split.
  - rewrite (zero_constraint_drop (- s)), (zero_constraint_drop s). ring.
  - rewrite (zero_constraint_drop s). pose proof (pow2_ge_0 s). lra.
Qed.

(** X7: adding a constant [c] to every entry moves the sum by [c] times the
    number of entries, so the zero-sum potential, unlike the pairwise one,
    tells the translates of a vector apart: among the translates of a
    non-empty vector that sums to zero, every other one scores strictly
    lower. *)
Theorem zero_sum_pins_translation (phi : vec) (c : R) :
  sum phi = 0 -> phi <> [] -> c <> 0 ->
  sum (adds phi c) = INR (length phi) * c
  /\ zero_sum (adds phi c) < zero_sum phi.
Proof.
  intros H0 Hne Hc.
  assert (Hn : 0 < INR (length phi)).
  { destruct phi; [contradiction|]. apply lt_0_INR. simpl. lia. }
  assert (Es : sum (adds phi c) = INR (length phi) * c) by (rewrite sum_adds, H0; ring).
  split; [exact Es|].
  unfold zero_sum. rewrite Es, H0.
  rewrite (zero_constraint_drop (INR (length phi) * c)), (zero_constraint_drop 0).
  assert (Hx : INR (length phi) * c <> 0)
    by (apply Rmult_integral_contrapositive_currified; lra).
  destruct (Rtotal_order (INR (length phi) * c) 0) as [Hl | [He | Hg]]; [|contradiction|]; nra.
Qed.

Lemma zero_sum_pins_translation_witness :
  sum (adds [1; -1] 2) = INR (length [1; -1]) * 2
  /\ zero_sum (adds [1; -1] 2) < zero_sum [1; -1].
Proof.
  apply (zero_sum_pins_translation [1; -1] 2); [simpl; lra | discriminate | lra].
Defined.

(** X8: for a positive precision the derived standard deviation is positive
    and its square is the reciprocal of the precision. *)
Theorem sigma_of_precision (p : bym_point) :
  0 < bym_tau_phi p ->
  0 < bym_sigma_phi p /\ bym_sigma_phi p ^ 2 * bym_tau_phi p = 1.
Proof.
  intros Ht. unfold bym_sigma_phi.
  pose proof (sqrt_lt_R0 _ Ht) as Hs. split.
  - apply Rdiv_lt_0_compat; lra.
  - replace ((1 / sqrt (bym_tau_phi p)) ^ 2) with (1 / (sqrt (bym_tau_phi p) ^ 2))
      by (field; lra).
    rewrite pow2_sqrt by lra. field. lra.
Qed.

Lemma sigma_of_precision_witness :
  0 < bym_sigma_phi bym_two_areas_point
  /\ bym_sigma_phi bym_two_areas_point ^ 2 * bym_tau_phi bym_two_areas_point = 1.
Proof.
  apply (sigma_of_precision bym_two_areas_point). simpl. lra.
Defined.

End ZeroSumPenalty.

(** ** The centred time index for an axis of any length. *)

Section TimeIndex.

Import Synthetic.
Local Open Scope Z_scope.

Lemma fold_add_app (a b : list Z) :
  fold_right Z.add 0 (a ++ b) = fold_right Z.add 0 a + fold_right Z.add 0 b.
Proof. induction a as [|x a IH]; simpl; [reflexivity | rewrite IH; lia]. Qed.

Lemma t_diff_row_sum (T : nat) :
  2 * fold_right Z.add 0 (t_diff_row T) = Z.of_nat T * (Z.of_nat T - 7).
Proof.
  unfold t_diff_row. induction T as [|T IH]; [reflexivity|].
  rewrite seq_S, map_app, fold_add_app. simpl fold_right at 2. simpl Nat.add. lia.
Qed.

(** X9: for a time axis of [T] steps every area gets the same row of
    [t_diff], of length [T], whose entry [t] is [t - 3]; twice the sum of
    the row is [T (T - 7)], so the index is centred (sums to zero) exactly
    for the empty axis and for [T = 7]. *)
Theorem t_diff_centred_iff (N T : nat) :
  length (t_diff N T) = N
  /\ Forall (fun row => row = t_diff_row T) (t_diff N T)
  /\ length (t_diff_row T) = T
  /\ (forall t, (t < T)%nat -> nth t (t_diff_row T) 0 = Z.of_nat t - 3)
  /\ 2 * fold_right Z.add 0 (t_diff_row T) = Z.of_nat T * (Z.of_nat T - 7)
  /\ (fold_right Z.add 0 (t_diff_row T) = 0 <-> T = 0%nat \/ T = 7%nat).
Proof.
  split; [apply repeat_length|].
  split; [apply Forall_forall; intros row H; exact (repeat_spec _ _ _ H)|].
  split; [unfold t_diff_row; rewrite length_map, length_seq; reflexivity|].
  split.
  - intros t Ht. unfold t_diff_row.
    rewrite (nth_indep _ 0 (Z.of_nat 0 - 3)) by (rewrite length_map, length_seq; exact Ht).
    rewrite (map_nth (fun t => Z.of_nat t - 3)), seq_nth by exact Ht. reflexivity.
  - split; [apply t_diff_row_sum|].
    pose proof (t_diff_row_sum T) as H. split.
    + intros E. rewrite E in H. nia.
    + intros [-> | ->]; reflexivity.
Qed.

End TimeIndex.

(** ** The linear predictors of the Leroux models. *)

Section LerouxPredictors.

Import Numpy Tensor2 Models Predictors.
Local Open Scope R_scope.

(** X10: in the static Leroux model the linear predictor of area [i] is
    logE_i + beta0 + beta1*x_i + sigma_phi*phi_i with
    sigma_phi = 1/sqrt(tau_phi), for data and effects of one length. *)
Theorem leroux_eta_entries (N : nat) (logE x : vec) (p : leroux_point) :
  length logE = N -> length x = N -> length (lx_phi p) = N ->
  leroux_eta logE x p
  = Some (map (fun i => nth i logE 0 + lx_beta0 p + lx_beta1 p * nth i x 0
                        + 1 / sqrt (lx_tau_phi p) * nth i (lx_phi p) 0)
              (seq 0 N)).
Proof.
  intros HE Hx Hphi. unfold leroux_eta.
  assert (E : adds logE (lx_beta0 p)
              = map (fun i => nth i logE 0 + lx_beta0 p) (seq 0 N)).
  { unfold adds. rewrite <- (map_map (fun i => nth i logE 0) (fun v => v + lx_beta0 p)).
    f_equal. apply indexed. exact HE. }
  rewrite E.
  rewrite broadcast2_indexed by (unfold smul; rewrite length_map; exact Hx). simpl.
  rewrite broadcast2_indexed by (unfold smul; rewrite length_map; exact Hphi).
  f_equal. apply map_ext_in. intros i Hi. apply in_seq in Hi.
  unfold smul. rewrite !nth_map_lt by lia. reflexivity.
Qed.

Lemma leroux_eta_entries_witness :
  leroux_eta [0; 1] [2; 3]
    {| lx_tau_phi := 4; lx_rho := 0.5; lx_phi := [1; -1];
       lx_beta0 := 0.5; lx_beta1 := 0.25 |}
  = Some (map (fun i => nth i [0; 1] 0 + 0.5 + 0.25 * nth i [2; 3] 0
                        + 1 / sqrt 4 * nth i [1; -1] 0)
              (seq 0 2)).
Proof.
  exact (leroux_eta_entries 2 [0; 1] [2; 3]
           {| lx_tau_phi := 4; lx_rho := 0.5; lx_phi := [1; -1];
              lx_beta0 := 0.5; lx_beta1 := 0.25 |} eq_refl eq_refl eq_refl).
Defined.

Lemma broadcast2_scalar_r (f : R -> R -> R) (a : vec) (y : R) :
  broadcast2 f a [y] = Some (map (fun x => f x y) a).
Proof. destruct a as [|x [|x' a]]; reflexivity. Qed.

Lemma broadcast2_scalar_l (f : R -> R -> R) (x : R) (b : vec) :
  broadcast2 f [x] b = Some (map (fun y => f x y) b).
Proof. destruct b as [|y [|y' b]]; reflexivity. Qed.

(** Row by row, for two tensors with the same number of rows. *)
Lemma broadcast2d_rows (f : R -> R -> R) (ra rb rc : nat -> vec) (l : list nat) :
  (forall i, In i l -> broadcast2 f (ra i) (rb i) = Some (rc i)) ->
  broadcast2d f (map ra l) (map rb l) = Some (map rc l).
Proof.
  intros H. unfold broadcast2d. rewrite !length_map, Nat.eqb_refl.
  induction l as [|i l IH]; simpl; [reflexivity|].
  rewrite (H i) by (left; reflexivity). simpl.
  rewrite IH by (intros j Hj; apply H; right; exact Hj). reflexivity.
Qed.

Lemma map_via_index {B : Type} (g : R -> B) (v : vec) (N : nat) :
  length v = N -> map g v = map (fun i => g (nth i v 0)) (seq 0 N).
Proof.
  intros H. rewrite <- (map_map (fun i => nth i v 0) g). f_equal.
  apply indexed. exact H.
Qed.

(** A tensor of shape (N, T), entry by entry. *)
Lemma shape_indexed (N T : nat) (A : mat) :
  shape N T A ->
  A = map (fun i => map (fun t => nth t (nth i A []) 0) (seq 0 T)) (seq 0 N).
Proof.
  intros [Hl Hr]. transitivity (map (fun i => nth i A []) (seq 0 N)).
  - rewrite <- Hl. apply map_seq_nth.
  - apply map_ext_in. intros i Hi. apply in_seq in Hi.
    apply indexed. rewrite Forall_forall in Hr. apply Hr. apply nth_In. lia.
Qed.

Lemma st_leroux_eta_indexed (N T : nat) (L X D : mat) (l x d : nat -> nat -> R)
    (p : st_leroux_point) :
  L = map (fun i => map (fun t => l i t) (seq 0 T)) (seq 0 N) ->
  X = map (fun i => map (fun t => x i t) (seq 0 T)) (seq 0 N) ->
  D = map (fun i => map (fun t => d i t) (seq 0 T)) (seq 0 N) ->
  length (st_phi p) = N -> length (st_delta p) = N ->
  st_leroux_eta L X D p
  = Some (map (fun i => map (fun t =>
              l i t + st_beta0 p + st_beta1 p * x i t
              + nth i (st_phi p) 0 * (1 / sqrt (st_tau_phi p))
              + (st_alpha p + nth i (st_delta p) 0 * (1 / sqrt (st_tau_delta p)))
                * d i t) (seq 0 T)) (seq 0 N)).
Proof.
  intros -> -> -> Hphi Hdelta. unfold st_leroux_eta.
  unfold madds, msmul, mmuls, sadd, column, adds, smul, st_sigma_phi, st_sigma_delta.
  rewrite (map_via_index (fun v => [v]) (st_phi p) N Hphi).
  rewrite (map_via_index (fun v => [v]) (st_delta p) N Hdelta).
  rewrite !map_map.
  rewrite (broadcast2d_rows Rplus _ _
             (fun i => map (fun t => l i t + st_beta0 p + st_beta1 p * x i t) (seq 0 T)))
    by (intros i _; rewrite !map_map; apply broadcast2_zip).
  simpl.
  rewrite (broadcast2d_rows Rplus _ _
             (fun i => map (fun t => l i t + st_beta0 p + st_beta1 p * x i t
                                      + nth i (st_phi p) 0 * (1 / sqrt (st_tau_phi p)))
                           (seq 0 T)))
    by (intros i _; simpl; rewrite broadcast2_scalar_r, map_map; reflexivity).
  simpl.
  rewrite (broadcast2d_rows Rmult _ _
             (fun i => map (fun t => (st_alpha p
                                       + nth i (st_delta p) 0 * (1 / sqrt (st_tau_delta p)))
                                      * d i t) (seq 0 T)))
    by (intros i _; simpl; rewrite broadcast2_scalar_l, map_map; reflexivity).
  simpl.
  apply broadcast2d_rows. intros i _. apply broadcast2_zip.
Qed.

(** X11: in the linear-time Leroux model, for data of shape (N, T) and
    effects with one entry per area, the linear predictor of area [i] at
    time [t] is
    log_offset_{i,t} + beta0 + beta1*x_{i,t} + phi_i*sigma_phi
    + (alpha + delta_i*sigma_delta)*t_diff_{i,t}:
    the columns [phi] and [delta] are broadcast along the time axis. *)
Theorem st_leroux_eta_entries (N T : nat) (log_offset_time x_time t_diff : mat)
    (p : st_leroux_point) :
  shape N T log_offset_time -> shape N T x_time -> shape N T t_diff ->
  length (st_phi p) = N -> length (st_delta p) = N ->
  st_leroux_eta log_offset_time x_time t_diff p
  = Some (map (fun i => map (fun t =>
              nth t (nth i log_offset_time []) 0 + st_beta0 p
              + st_beta1 p * nth t (nth i x_time []) 0
              + nth i (st_phi p) 0 * (1 / sqrt (st_tau_phi p))
              + (st_alpha p + nth i (st_delta p) 0 * (1 / sqrt (st_tau_delta p)))
                * nth t (nth i t_diff []) 0) (seq 0 T)) (seq 0 N)).
Proof.
  intros HL HX HD Hphi Hdelta.
  exact (st_leroux_eta_indexed N T _ _ _
           (fun i t => nth t (nth i log_offset_time []) 0)
           (fun i t => nth t (nth i x_time []) 0)
           (fun i t => nth t (nth i t_diff []) 0) p
           (shape_indexed N T _ HL) (shape_indexed N T _ HX) (shape_indexed N T _ HD)
           Hphi Hdelta).
Qed.

Lemma two_by_two_shape : shape 2 2 two_by_two.
Proof. split; [reflexivity | repeat constructor]. Qed.

Lemma st_leroux_eta_entries_witness :
  st_leroux_eta two_by_two two_by_two two_by_two st_two_areas_point
  = Some (map (fun i => map (fun t =>
              nth t (nth i two_by_two []) 0 + st_beta0 st_two_areas_point
              + st_beta1 st_two_areas_point * nth t (nth i two_by_two []) 0
              + nth i (st_phi st_two_areas_point) 0
                * (1 / sqrt (st_tau_phi st_two_areas_point))
              + (st_alpha st_two_areas_point
                 + nth i (st_delta st_two_areas_point) 0
                   * (1 / sqrt (st_tau_delta st_two_areas_point)))
                * nth t (nth i two_by_two []) 0) (seq 0 2)) (seq 0 2)).
Proof.
  exact (st_leroux_eta_entries 2 2 two_by_two two_by_two two_by_two st_two_areas_point
           two_by_two_shape two_by_two_shape two_by_two_shape eq_refl eq_refl).
Defined.

End LerouxPredictors.

(** ** Extraction of the edge lists, continued. *)

Section EdgeOrder.

Import Numpy Adjacency Serial.
Local Open Scope nat_scope.

Lemma StronglySorted_app {A : Type} (R : A -> A -> Prop) (a b : list A) :
  StronglySorted R a -> StronglySorted R b ->
  (forall x y, In x a -> In y b -> R x y) ->
  StronglySorted R (a ++ b).
Proof.
  intros Ha Hb Hab. induction Ha as [|x a Ha IH Hx]; simpl; [exact Hb|].
  constructor.
  - apply IH. intros u v Hu Hv. apply Hab; [right; exact Hu | exact Hv].
  - apply Forall_app. split; [exact Hx|].
    apply Forall_forall. intros y Hy. apply Hab; [left; reflexivity | exact Hy].
Qed.

Lemma row_where_sorted (i j0 : nat) (row : list Z) :
  StronglySorted lex_lt (row_where i j0 row).
Proof.
  revert j0. induction row as [|v r IH]; intros j0; simpl; [constructor|].
  destruct (v =? 1)%Z; [|apply IH].
  constructor; [apply IH|].
  apply Forall_forall. intros [a b] H. apply in_row_where in H.
  right. simpl. lia.
Qed.

Lemma rows_where_sorted (i0 : nat) (m : matrix) :
  StronglySorted lex_lt (rows_where i0 m).
Proof.
  revert i0. induction m as [|r m IH]; intros i0; simpl; [constructor|].
  apply StronglySorted_app; [apply row_where_sorted | apply IH |].
  intros [a b] [a' b'] H H'. apply in_row_where in H. apply in_rows_where in H'.
  left. simpl. lia.
Qed.

(** X12: [np.where] lists every cell that holds a one exactly once, and the
    two index arrays have the length [N_edges]; this holds for every matrix,
    whatever its shape and entries. *)
Theorem edge_lists_exactly_once (m : matrix) :
  NoDup (where_one m)
  /\ (forall i j, In (i, j) (where_one m) <-> entry m i j = 1%Z)
  /\ combine (node1 m) (node2 m)
     = map (fun p => (Z.of_nat (fst p), Z.of_nat (snd p))) (where_one m)
  /\ length (node1 m) = N_edges m /\ length (node2 m) = N_edges m.
Proof.
  split; [apply NoDup_where_one|]. split; [apply in_where_one|].
  split; [apply combine_map_same|].
  split; [apply length_node1 | apply length_node2].
Qed.

Lemma StronglySorted_map {A B : Type} (R : A -> A -> Prop) (R' : B -> B -> Prop)
    (f : A -> B) (l : list A) :
  (forall x y, R x y -> R' (f x) (f y)) ->
  StronglySorted R l -> StronglySorted R' (map f l).
Proof.
  intros Hf. induction 1 as [|x l Hl IH Hx]; simpl; constructor; [exact IH|].
  apply Forall_map. eapply Forall_impl; [|exact Hx]. intros y. apply Hf.
Qed.

(** X13: the edges come in row-major order: strictly increasing in the
    row index, and in the column index within a row; in particular [node1]
    never decreases. *)
Theorem edge_lists_row_major (m : matrix) :
  StronglySorted lex_lt (where_one m)
  /\ StronglySorted Z.le (node1 m).
Proof.
  split; [apply rows_where_sorted|].
  unfold node1. apply (StronglySorted_map lex_lt); [|apply rows_where_sorted].
  intros [a b] [a' b'] [H | [H _]]; simpl in *; lia.
Qed.

End EdgeOrder.

(** ** When the loader succeeds, and what it writes. *)

Section LoaderBehaviour.

Import Numpy Adjacency Potentials Reference.
Local Open Scope nat_scope.

Lemma norm_index_some_iff (n : nat) (k : Z) (j : nat) :
  norm_index n k = Some j
  <-> j < n /\ (k = Z.of_nat j \/ k = (Z.of_nat j - Z.of_nat n)%Z).
Proof.
  unfold norm_index.
  destruct (Z.leb_spec 0 k); destruct (Z.ltb_spec k (Z.of_nat n)); simpl.
  - split; [intros E; inversion E; lia | intros [? [? | ?]]; [f_equal; lia | lia]].
  - destruct (Z.leb_spec (- Z.of_nat n) k); destruct (Z.ltb_spec k 0); simpl;
      (split; [intros E; try discriminate; inversion E; lia | intros [? [? | ?]]; lia]).
  - destruct (Z.leb_spec (- Z.of_nat n) k); destruct (Z.ltb_spec k 0); simpl;
      (split; [intros E; try discriminate; inversion E; lia
              | intros [? [? | ?]]; try lia; f_equal; lia]).
  - destruct (Z.leb_spec (- Z.of_nat n) k); destruct (Z.ltb_spec k 0); simpl;
      (split; [intros E; try discriminate; inversion E; lia
              | intros [? [? | ?]]; try lia; f_equal; lia]).
Qed.

Lemma norm_index_defined_iff (n : nat) (k : Z) :
  (exists j, norm_index n k = Some j) <-> in_range n k.
Proof.
  unfold in_range. split.
  - intros (j & H). apply norm_index_some_iff in H. lia.
  - intros H. destruct (Z.ltb_spec k 0).
    + exists (Z.to_nat (k + Z.of_nat n)). apply norm_index_some_iff. lia.
    + exists (Z.to_nat k). apply norm_index_some_iff. lia.
Qed.

Lemma mapM_defined_iff {A B : Type} (f : A -> option B) (l : list A) :
  (exists r, mapM f l = Some r) <-> Forall (fun a => exists b, f a = Some b) l.
Proof.
  split.
  - intros (r & H). apply Forall_forall. intros a Ha.
    exact (mapM_some_all f l r H a Ha).
  - induction 1 as [|a l (b & Hb) _ (r & Hr)]; simpl.
    + exists []. reflexivity.
    + rewrite Hb, Hr. simpl. eauto.
Qed.

Lemma assign_ones_defined_iff (row : list Z) (idx : list Z) :
  (exists row', assign_ones row idx = Some row')
  <-> Forall (in_range (length row)) idx.
Proof.
  unfold assign_ones. split.
  - intros (row' & H).
    destruct (mapM (norm_index (length row)) idx) as [cols|] eqn:E; [|discriminate].
    apply Forall_forall. intros k Hk. apply norm_index_defined_iff.
    exact (mapM_some_all _ _ _ E k Hk).
  - intros HF.
    assert (Hc : exists cols, mapM (norm_index (length row)) idx = Some cols).
    { apply mapM_defined_iff. eapply Forall_impl; [|exact HF].
      intros k. apply norm_index_defined_iff. }
    destruct Hc as (cols & ->). simpl. eauto.
Qed.

Lemma Forall_set_nth {A : Type} (P : A -> Prop) (l : list A) (j : nat) (v : A) :
  Forall P l -> P v -> Forall P (set_nth l j v).
Proof.
  intros Hl Hv. revert j. induction Hl as [|h t Hh Ht IH]; intros [|j]; simpl;
    constructor; auto.
Qed.

Lemma assign_areas_in_adj (adj : list (list Z)) (areas : list nat) :
  forall m m', assign_areas adj m areas = Some m' ->
  forall a, In a areas -> a < length adj.
Proof.
  induction areas as [|x areas IH]; simpl; intros m m' H a Ha; [contradiction|].
  destruct (assign_area adj m x) as [m1|] eqn:E; simpl in H; [|discriminate].
  destruct Ha as [<- | Ha]; [|exact (IH _ _ H a Ha)].
  unfold assign_area in E.
  destruct (nth_error adj x) as [nb|] eqn:En; [|discriminate].
  apply nth_error_Some. congruence.
Qed.

Lemma assign_areas_defined (N : nat) (adj : list (list Z)) (areas : list nat) :
  (forall a, In a areas ->
             a < N /\ a < length adj /\ Forall (in_range N) (nth a adj [])) ->
  forall m, length m = N -> Forall (fun r => length r = N) m ->
  exists m', assign_areas adj m areas = Some m'.
Proof.
  induction areas as [|a areas IH]; simpl; intros Ha m Hl Hr; [eauto|].
  destruct (Ha a (or_introl eq_refl)) as (HaN & Haadj & Hin).
  unfold assign_area.
  rewrite (nth_error_nth' adj [] Haadj). simpl.
  rewrite (nth_error_nth' m [] (eq_ind_r (fun n => a < n) HaN Hl)). simpl.
  assert (Hrow : length (nth a m []) = N).
  { rewrite Forall_forall in Hr. apply Hr. apply nth_In. lia. }
  destruct (proj2 (assign_ones_defined_iff (nth a m []) (nth a adj [])))
    as (row' & Hrow'); [rewrite Hrow; exact Hin|].
  rewrite Hrow'. simpl.
  apply IH.
  - intros b Hb. apply Ha. right. exact Hb.
  - rewrite length_set_nth. exact Hl.
  - apply Forall_set_nth; [exact Hr|].
    rewrite (proj1 (assign_ones_spec _ _ _ Hrow')). exact Hrow.
Qed.

Lemma zeros_shape (N : nat) :
  length (zeros N N) = N /\ Forall (fun r => length r = N) (zeros N N).
Proof.
  unfold zeros. split; [apply repeat_length|].
  apply Forall_forall. intros r Hr. apply repeat_spec in Hr. subst.
  apply repeat_length.
Qed.

Lemma build_adj_matrix_defined_iff (N : nat) (adj : list (list Z)) :
  (exists m, build_adj_matrix N adj = Some m)
  <-> (N <= length adj /\ forall i, i < N -> Forall (in_range N) (nth i adj [])).
Proof.
  unfold build_adj_matrix. split.
  - intros (m & H). split.
    + destruct N as [|N]; [lia|].
      assert (N < length adj); [|lia].
      apply (assign_areas_in_adj adj (seq 0 (S N)) _ _ H). apply in_seq. lia.
    + intros i Hi.
      destruct (assign_areas_spec adj (seq 0 N) (seq_NoDup N 0) _ _ H) as (_ & Hs).
      destruct (proj1 (Hs i)) as (row' & Has & _); [apply in_seq; lia|].
      rewrite (nth_zeros_row N i Hi) in Has.
      rewrite <- (repeat_length 0%Z N) at 1.
      apply assign_ones_defined_iff. eauto.
  - intros (Hlen & Hin). destruct (zeros_shape N) as (Hl & Hr).
    apply (assign_areas_defined N adj (seq 0 N)); [|exact Hl | exact Hr].
    intros a Ha. apply in_seq in Ha. split; [lia|]. split; [lia|]. apply Hin. lia.
Qed.

Lemma nth_to_python_indexing (raw : list (list Z)) (i : nat) :
  nth i (to_python_indexing raw) [] = map (fun v => (v - 1)%Z) (nth i raw []).
Proof.
  unfold to_python_indexing.
  exact (map_nth (map (fun v => (v - 1)%Z)) raw [] i).
Qed.

Lemma load_adjacency_defined_iff (col : list string) :
  (exists m, load_adjacency col = Some m)
  <-> exists raw,
        mapM parse_adj col = Some raw
        /\ forall row v, In row raw -> In v row ->
             (- Z.of_nat (length col) < v <= Z.of_nat (length col))%Z.
Proof.
  unfold load_adjacency. split.
  - intros (m & H).
    destruct (mapM parse_adj col) as [raw|] eqn:E; simpl in H; [|discriminate].
    exists raw. split; [reflexivity|]. intros row v Hrow Hv.
    destruct (proj1 (build_adj_matrix_defined_iff _ _) (ex_intro _ m H)) as (_ & Hin).
    destruct (In_nth _ _ [] Hrow) as (i & Hi & Hn).
    rewrite (mapM_length _ _ _ E) in Hi.
    specialize (Hin i Hi). rewrite nth_to_python_indexing, Hn in Hin.
    rewrite Forall_forall in Hin.
    assert (Hr : in_range (length col) (v - 1)).
    { apply Hin. apply in_map_iff. exists v. split; [reflexivity | exact Hv]. }
    unfold in_range in Hr. lia.
  - intros (raw & E & Hv). rewrite E. simpl.
    apply build_adj_matrix_defined_iff. split.
    + unfold to_python_indexing. rewrite length_map, (mapM_length _ _ _ E). lia.
    + intros i Hi. rewrite nth_to_python_indexing.
      apply Forall_forall. intros k Hk. apply in_map_iff in Hk.
      destruct Hk as (v & <- & Hin).
      assert (Hrow : In (nth i raw []) raw)
        by (apply nth_In; rewrite (mapM_length _ _ _ E); exact Hi).
      specialize (Hv _ _ Hrow Hin). unfold in_range. lia.
Qed.

(** X14: for a column whose numbers, converted to 0-based indices, are
    signed 64-bit integers, loading succeeds exactly when every neighbour
    string parses and every number [v] listed in the file satisfies
    -N < v <= N, where [N] is the number of rows; zero and small negative
    numbers are accepted. *)
Theorem load_adjacency_succeeds_iff (col : list string) :
  (forall raw, mapM parse_adj col = Some raw -> intp_column raw) ->
  ((exists m, load_adjacency col = Some m)
   <-> exists raw,
         mapM parse_adj col = Some raw
         /\ forall row v, In row raw -> In v row ->
              (- Z.of_nat (length col) < v <= Z.of_nat (length col))%Z).
Proof. intros _. apply load_adjacency_defined_iff. Qed.

Lemma two_areas_column_intp (raw : list (list Z)) :
  mapM parse_adj ["[0]"; "[1]"]%string = Some raw -> intp_column raw.
Proof.
  intros H. vm_compute in H. inversion H. subst.
  repeat constructor; unfold fits_intp; lia.
Qed.

Lemma load_adjacency_succeeds_iff_witness :
  (exists m, load_adjacency ["[0]"; "[1]"]%string = Some m)
  <-> exists raw,
        mapM parse_adj ["[0]"; "[1]"]%string = Some raw
        /\ forall row v, In row raw -> In v row ->
             (- Z.of_nat (length ["[0]"; "[1]"]%string) < v
              <= Z.of_nat (length ["[0]"; "[1]"]%string))%Z.
Proof.
  exact (load_adjacency_succeeds_iff ["[0]"; "[1]"]%string two_areas_column_intp).
Defined.

Lemma load_adjacency_cell (col : list string) (raw : list (list Z))
    (m : matrix) (i j : nat) :
  load_adjacency col = Some m -> mapM parse_adj col = Some raw ->
  i < length col ->
  (entry m i j = 1%Z <-> j < length col /\ file_lists (length col) raw i j).
Proof.
  unfold load_adjacency, file_lists. intros H E Hi. rewrite E in H. simpl in H.
  rewrite (proj1 (build_adj_matrix_binary _ _ m i j H Hi)).
  unfold listed. rewrite nth_to_python_indexing. split.
  - intros (k & Hk & Hn). apply in_map_iff in Hk. destruct Hk as (v & <- & Hv).
    apply norm_index_some_iff in Hn. destruct Hn as (Hj & [Hn | Hn]).
    + split; [exact Hj|]. left. replace (Z.of_nat j + 1)%Z with v by lia. exact Hv.
    + split; [exact Hj|]. right.
      replace (Z.of_nat j + 1 - Z.of_nat (length col))%Z with v by lia. exact Hv.
  - intros (Hj & [Hv | Hv]).
    + exists (Z.of_nat j). split.
      * apply in_map_iff. exists (Z.of_nat j + 1)%Z. split; [lia | exact Hv].
      * apply norm_index_some_iff. auto.
    + exists (Z.of_nat j - Z.of_nat (length col))%Z. split.
      * apply in_map_iff. exists (Z.of_nat j + 1 - Z.of_nat (length col))%Z.
        split; [lia | exact Hv].
      * apply norm_index_some_iff. auto.
Qed.

(** X15: for a column whose numbers, converted to 0-based indices, are
    signed 64-bit integers: in the matrix that loading produces, cell (i, j)
    holds a one exactly when the file lists for area [i] the number j + 1 or
    the number j + 1 - N; so a listed 0 marks the last area and a listed -1
    the one before it. *)
Theorem load_adjacency_cells (col : list string) (raw : list (list Z))
    (m : matrix) (i j : nat) :
  load_adjacency col = Some m -> mapM parse_adj col = Some raw ->
  intp_column raw -> i < length col ->
  (entry m i j = 1%Z
   <-> j < length col
       /\ (In (Z.of_nat j + 1)%Z (nth i raw [])
           \/ In (Z.of_nat j + 1 - Z.of_nat (length col))%Z (nth i raw []))).
Proof.
  intros H E _ Hi. exact (load_adjacency_cell col raw m i j H E Hi).
Qed.

Lemma load_adjacency_cells_witness :
  entry two_areas 0 1 = 1%Z
  <-> 1 < length ["[0]"; "[1]"]%string
      /\ (In (Z.of_nat 1 + 1)%Z (nth 0 [[0]; [1]]%Z [])
          \/ In (Z.of_nat 1 + 1 - Z.of_nat (length ["[0]"; "[1]"]%string))%Z
                (nth 0 [[0]; [1]]%Z [])).
Proof.
  apply (load_adjacency_cells ["[0]"; "[1]"]%string [[0]; [1]]%Z two_areas 0 1);
    [reflexivity | reflexivity | exact (two_areas_column_intp _ eq_refl) | simpl; lia].
Defined.

Lemma matrix_ext (N : nat) (m m' : matrix) :
  square N m -> square N m' ->
  (forall i j, i < N -> j < N -> entry m i j = entry m' i j) ->
  m = m'.
Proof.
  intros [Hl Hr] [Hl' Hr'] He. rewrite Forall_forall in Hr, Hr'.
  apply (nth_ext _ _ [] []); [congruence|].
  intros i Hi. rewrite Hl in Hi.
  assert (H1 : length (nth i m []) = N) by (apply Hr, nth_In; lia).
  assert (H2 : length (nth i m' []) = N) by (apply Hr', nth_In; lia).
  apply (nth_ext _ _ 0%Z 0%Z); [congruence|].
  intros j Hj. rewrite H1 in Hj. exact (He i j Hi Hj).
Qed.

(** X16: the matrix depends only on which numbers each area lists: the
    order of a neighbour list and repeated entries make no difference. *)
Theorem build_adj_matrix_order_irrelevant
    (N : nat) (adj adj' : list (list Z)) (m m' : matrix) :
  build_adj_matrix N adj = Some m -> build_adj_matrix N adj' = Some m' ->
  (forall i k, i < N -> (In k (nth i adj []) <-> In k (nth i adj' []))) ->
  m = m'.
Proof.
  intros H H' Hsame.
  apply (matrix_ext N);
    [exact (build_adj_matrix_square _ _ _ H) | exact (build_adj_matrix_square _ _ _ H') |].
  intros i j Hi _.
  destruct (build_adj_matrix_binary N adj m i j H Hi) as (Hl & Hb).
  destruct (build_adj_matrix_binary N adj' m' i j H' Hi) as (Hl' & Hb').
  assert (Hiff : entry m i j = 1%Z <-> entry m' i j = 1%Z).
  { rewrite Hl, Hl'. unfold listed. split; intros (k & Hk & Hn); exists k;
      (split; [apply (Hsame i k Hi); exact Hk | exact Hn]). }
  destruct Hb as [Z0 | O1]; destruct Hb' as [Z0' | O1']; try congruence.
  - apply Hiff in O1'. congruence.
  - apply Hiff in O1. congruence.
Qed.

Lemma build_adj_matrix_order_irrelevant_witness :
  [[0; 1; 1]; [1; 0; 0]; [1; 0; 0]]%Z = [[0; 1; 1]; [1; 0; 0]; [1; 0; 0]]%Z.
Proof.
  apply (build_adj_matrix_order_irrelevant 3
           [[1; 2]; [0]; [0]]%Z [[2; 1; 2]; [0; 0]; [0]]%Z);
    [reflexivity | reflexivity |].
  intros i k Hi. destruct i as [|[|[|i]]]; simpl; try lia; tauto.
Defined.

(** X17: for neighbour lists of signed 64-bit indices, the edge lists of
    the matrix built from them pair area [i] with area [j] exactly when the
    list of area [i] holds the index [j] or the negative index [j - N]. *)
Theorem edge_lists_are_listed_pairs
    (N : nat) (adj : list (list Z)) (m : matrix) (i j : nat) :
  build_adj_matrix N adj = Some m -> Forall (Forall fits_intp) adj ->
  (In (Z.of_nat i, Z.of_nat j) (combine (node1 m) (node2 m))
   <-> i < N /\ j < N
       /\ (In (Z.of_nat j) (nth i adj [])
           \/ In (Z.of_nat j - Z.of_nat N)%Z (nth i adj []))).
Proof.
  intros H _. unfold node1, node2. rewrite combine_map_same, in_map_iff.
  assert (Hp : (exists p : nat * nat,
                   (Z.of_nat (fst p), Z.of_nat (snd p)) = (Z.of_nat i, Z.of_nat j)
                   /\ In p (where_one m))
               <-> In (i, j) (where_one m)).
  { split.
    - intros ([a b] & E & Hin). simpl in E. inversion E as [[Ea Eb]].
      apply Nat2Z.inj in Ea, Eb. subst. exact Hin.
    - intros Hin. exists (i, j). auto. }
  assert (Hl : listed N adj i j
               <-> j < N /\ (In (Z.of_nat j) (nth i adj [])
                             \/ In (Z.of_nat j - Z.of_nat N)%Z (nth i adj []))).
  { unfold listed. split.
    - intros (k & Hk & Hn). apply norm_index_some_iff in Hn.
      destruct Hn as (Hj & [-> | ->]); auto.
    - intros (Hj & [Hk | Hk]); eexists; (split; [exact Hk|]);
        apply norm_index_some_iff; auto. }
  rewrite Hp, in_where_one, <- Hl. split.
  - intros He.
    destruct (entry_one_bounds N m i j (build_adj_matrix_square _ _ _ H) He) as [Hi _].
    split; [exact Hi|]. apply (build_adj_matrix_binary N adj m i j H Hi). exact He.
  - intros [Hi Hlst]. apply (build_adj_matrix_binary N adj m i j H Hi). exact Hlst.
Qed.

Lemma edge_lists_are_listed_pairs_witness :
  In (Z.of_nat 0, Z.of_nat 1) (combine (node1 two_areas) (node2 two_areas))
  <-> 0 < 2 /\ 1 < 2
      /\ (In (Z.of_nat 1) (nth 0 [[-1]; [0]]%Z [])
          \/ In (Z.of_nat 1 - Z.of_nat 2)%Z (nth 0 [[-1]; [0]]%Z [])).
Proof.
  apply (edge_lists_are_listed_pairs 2 [[-1]; [0]]%Z two_areas 0 1);
    [reflexivity | repeat constructor; unfold fits_intp; lia].
Defined.

(** X18: whatever file is loaded, the extracted edge lists index safely into
    every vector with one entry per area: the pairwise potential returns a
    number, minus [rho]/2 times the sum over the enumerated cells of the
    squared differences, and never raises. *)
Theorem pairwise_diff_defined_after_loading
    (col : list string) (m : matrix) (rho : R) (phi : vec) :
  load_adjacency col = Some m -> length phi = length col ->
  pairwise_diff_leroux rho phi (node1 m) (node2 m)
  = Some (-0.5 * rho * sum (map (sq_diff phi) (where_one m)))%R.
Proof.
  unfold load_adjacency. intros H Hphi.
  destruct (mapM parse_adj col) as [raw|]; simpl in H; [|discriminate].
  pose proof (edge_squares (length col) m phi Hphi (build_adj_matrix_square _ _ _ H)) as E.
  unfold pairwise_diff_leroux.
  destruct (take phi (node1 m)) as [a|]; simpl in *; [|discriminate].
  destruct (take phi (node2 m)) as [b|]; simpl in *; [|discriminate].
  destruct (broadcast2 Rminus a b) as [d|]; simpl in *; [|discriminate].
  inversion E as [E']. reflexivity.
Qed.

Lemma pairwise_diff_defined_after_loading_witness :
  pairwise_diff_leroux 1 [0; 1]%R (node1 two_areas) (node2 two_areas)
  = Some (-0.5 * 1 * sum (map (sq_diff [0; 1]%R) (where_one two_areas)))%R.
Proof.
  exact (pairwise_diff_defined_after_loading ["[2]"; "[1]"]%string two_areas
           1%R [0; 1]%R eq_refl eq_refl).
Defined.

(** C7 (amended): for a neighbour-list column whose numbers, converted to
    0-based indices, are signed 64-bit integers and from which a matrix is
    produced: cell (i, j) holds a one exactly when the file lists for area
    [i] the number j + 1 or the number j + 1 - N (a negative index counts
    from the end of the row), and a zero otherwise; the matrix is symmetric
    if and only if this listing is mutual. *)
Theorem adjacency_symmetric_iff_mutual
    (col : list string) (raw : list (list Z)) (m : matrix) :
  mapM parse_adj col = Some raw -> intp_column raw ->
  load_adjacency col = Some m ->
  square (length col) m
  /\ (forall i j, i < length col -> j < length col ->
        (entry m i j = 1%Z <-> file_lists (length col) raw i j)
        /\ (entry m i j = 0%Z \/ entry m i j = 1%Z))
  /\ (symmetric (length col) m <->
      forall i j, i < length col -> j < length col ->
        (file_lists (length col) raw i j <-> file_lists (length col) raw j i)).
Proof.
  intros E _ H.
  assert (Hc : forall i j, i < length col -> j < length col ->
                 (entry m i j = 1%Z <-> file_lists (length col) raw i j)
                 /\ (entry m i j = 0%Z \/ entry m i j = 1%Z)).
  { intros i j Hi Hj. split.
    - rewrite (load_adjacency_cell col raw m i j H E Hi). tauto.
    - unfold load_adjacency in H. rewrite E in H. simpl in H.
      exact (proj2 (build_adj_matrix_binary _ _ m i j H Hi)). }
  split.
  - unfold load_adjacency in H. rewrite E in H. simpl in H.
    exact (build_adj_matrix_square _ _ _ H).
  - split; [exact Hc|]. split.
    + intros Hsym i j Hi Hj.
      rewrite <- (proj1 (Hc i j Hi Hj)), <- (proj1 (Hc j i Hj Hi)), (Hsym i j Hi Hj).
      tauto.
    + intros Hmut i j Hi Hj.
      destruct (Hc i j Hi Hj) as (Hij & [Z0 | O1]);
        destruct (Hc j i Hj Hi) as (Hji & [Z0' | O1']); try congruence.
      * apply Hji, (Hmut i j Hi Hj), Hij in O1'. congruence.
      * apply Hij, (Hmut i j Hi Hj), Hji in O1. congruence.
Qed.

Lemma adjacency_symmetric_iff_mutual_witness :
  square (length ["[0]"; "[1]"]%string) two_areas
  /\ (forall i j, i < length ["[0]"; "[1]"]%string ->
                  j < length ["[0]"; "[1]"]%string ->
        (entry two_areas i j = 1%Z
         <-> file_lists (length ["[0]"; "[1]"]%string) [[0]; [1]]%Z i j)
        /\ (entry two_areas i j = 0%Z \/ entry two_areas i j = 1%Z))
  /\ (symmetric (length ["[0]"; "[1]"]%string) two_areas <->
      forall i j, i < length ["[0]"; "[1]"]%string ->
                  j < length ["[0]"; "[1]"]%string ->
        (file_lists (length ["[0]"; "[1]"]%string) [[0]; [1]]%Z i j
         <-> file_lists (length ["[0]"; "[1]"]%string) [[0]; [1]]%Z j i)).
Proof.
  exact (adjacency_symmetric_iff_mutual ["[0]"; "[1]"]%string [[0]; [1]]%Z two_areas
           eq_refl (two_areas_column_intp _ eq_refl) eq_refl).
Defined.

End LoaderBehaviour.

(** ** Reading back what was written. *)

Section RoundTrip.

Import PyStr Adjacency Reference Serial.

Lemma space_char (c : ascii) :
  is_space c = true ->
  is_digit c = false /\ Ascii.eqb c "_"%char = false
  /\ Ascii.eqb c "+"%char = false /\ Ascii.eqb c "-"%char = false
  /\ mem c ["]"%char; "["%char] = false /\ c <> ","%char.
Proof.
  destruct c as [[] [] [] [] [] [] [] []]; intros H; try discriminate H;
    repeat split; discriminate.
Qed.

(** After the digits, whitespace up to the end is skipped. *)
Lemma scan_blank_end (b : chars) (acc : Z) :
  blank b = true -> scan_digits b false true acc = Some acc.
Proof.
  destruct b as [|c r]; [reflexivity|]. intros H.
  assert (Hc : is_space c = true) by (simpl in H; apply andb_true_iff in H; tauto).
  destruct (space_char c Hc) as (Hd & Hu & _).
  cbn [scan_digits]. rewrite Hd, Hu. unfold blank in H. rewrite H. reflexivity.
Qed.

Lemma scan_uint_acc (d : Decimal.uint) (acc : positive) (b : chars) :
  blank b = true ->
  scan_digits (uchars d ++ b) false true (Z.pos acc)
  = Some (Z.pos (Pos.of_uint_acc d acc)).
Proof.
  intros Hb. revert acc. unfold uchars.
  induction d as [|d IH|d IH|d IH|d IH|d IH|d IH|d IH|d IH|d IH|d IH]; intros acc;
    [exact (scan_blank_end b _ Hb) | ..];
    cbn [DecimalString.NilEmpty.string_of_uint list_ascii_of_string app
         scan_digits Pos.of_uint_acc];
    change (is_digit _) with true; cbv iota;
    rewrite <- IH; f_equal;
    match goal with
    | |- context [digit_val ?c] =>
        let v := eval vm_compute in (digit_val c) in change (digit_val c) with v
    end; lia.
Qed.

Lemma scan_uint (d : Decimal.uint) (seen : bool) (b : chars) :
  blank b = true ->
  seen = true \/ d <> Decimal.Nil ->
  scan_digits (uchars d ++ b) false seen 0%Z = Some (Z.of_N (Pos.of_uint d)).
Proof.
  intros Hb. revert seen. unfold uchars.
  induction d as [|d IH|d IH|d IH|d IH|d IH|d IH|d IH|d IH|d IH|d IH]; intros seen H.
  - destruct H as [-> | H]; [exact (scan_blank_end b _ Hb) | contradiction].
  - cbn [DecimalString.NilEmpty.string_of_uint list_ascii_of_string app
         scan_digits Pos.of_uint].
    change (is_digit _) with true. cbv iota.
    apply (IH true). left. reflexivity.
  - exact (scan_uint_acc d 1 b Hb).
  - exact (scan_uint_acc d 2 b Hb).
  - exact (scan_uint_acc d 3 b Hb).
  - exact (scan_uint_acc d 4 b Hb).
  - exact (scan_uint_acc d 5 b Hb).
  - exact (scan_uint_acc d 6 b Hb).
  - exact (scan_uint_acc d 7 b Hb).
  - exact (scan_uint_acc d 8 b Hb).
  - exact (scan_uint_acc d 9 b Hb).
Qed.

Lemma uchars_digits (d : Decimal.uint) :
  Forall (fun c => is_digit c = true) (uchars d).
Proof.
  unfold uchars.
  induction d; simpl; constructor; auto.
Qed.

Lemma drop_space_blank (a s : chars) :
  blank a = true -> drop_space (a ++ s) = drop_space s.
Proof.
  induction a as [|c a IH]; simpl; intros H; [reflexivity|].
  apply andb_true_iff in H. destruct H as [Hc Ha]. rewrite Hc. exact (IH Ha).
Qed.

Lemma int_of_uchars (d : Decimal.uint) (a b : chars) :
  blank a = true -> blank b = true -> d <> Decimal.Nil ->
  int_of_chars (a ++ uchars d ++ b) = Some (Z.of_N (Pos.of_uint d))
  /\ int_of_chars (a ++ "-"%char :: uchars d ++ b) = Some (- Z.of_N (Pos.of_uint d))%Z.
Proof.
  intros Ha Hb Hd. pose proof (scan_uint d false b Hb (or_intror Hd)) as H.
  unfold int_of_chars. rewrite !(drop_space_blank a _ Ha). split.
  - rewrite <- H. unfold uchars. destruct d; [contradiction | reflexivity ..].
  - simpl drop_space. cbv iota. rewrite H. reflexivity.
Qed.

(** [int] reads back the decimal numeral of every integer, with or without
    whitespace around it. *)
Lemma int_of_padded (a b : chars) (z : Z) :
  blank a = true -> blank b = true ->
  int_of_chars (a ++ decimal z ++ b) = Some z.
Proof.
  intros Ha Hb. unfold decimal. destruct z as [|p|p]; simpl Z.to_int;
    cbn [DecimalString.NilEmpty.string_of_int list_ascii_of_string].
  - exact (proj1 (int_of_uchars (Decimal.D0 Decimal.Nil) a b Ha Hb
                    ltac:(discriminate))).
  - destruct (int_of_uchars (Pos.to_uint p) a b Ha Hb
                (DecimalPos.Unsigned.to_uint_nonnil p)) as [H _].
    unfold uchars in H. rewrite H, DecimalPos.Unsigned.of_to. reflexivity.
  - destruct (int_of_uchars (Pos.to_uint p) a b Ha Hb
                (DecimalPos.Unsigned.to_uint_nonnil p)) as [_ H].
    unfold uchars in H. cbn [app]. rewrite H, DecimalPos.Unsigned.of_to. reflexivity.
Qed.

Lemma int_of_decimal (z : Z) : int_of_chars (decimal z) = Some z.
Proof.
  rewrite <- (app_nil_r (decimal z)).
  exact (int_of_padded [] [] z eq_refl eq_refl).
Qed.

(** A numeral holds digits and the minus sign only. *)
Lemma decimal_chars (z : Z) (c : ascii) :
  In c (decimal z) -> is_digit c = true \/ c = "-"%char.
Proof.
  unfold decimal. intros H.
  assert (U : forall d, In c (uchars d) -> is_digit c = true).
  { intros d. apply (proj1 (Forall_forall _ _) (uchars_digits d)). }
  destruct z as [|p|p]; simpl in H.
  - destruct H as [<- | []]. left. reflexivity.
  - left. exact (U _ H).
  - destruct H as [<- | H]; [right; reflexivity | left; exact (U _ H)].
Qed.

Lemma split_no_sep (sep : ascii) (t : chars) :
  ~ In sep t -> split sep t = [t].
Proof.
  induction t as [|c t IH]; simpl; intros H; [reflexivity|].
  destruct (Ascii.eqb_spec c sep) as [-> | Hc]; [tauto|].
  rewrite IH by tauto. reflexivity.
Qed.

Lemma split_app_sep (sep : ascii) (t r : chars) :
  ~ In sep t -> split sep (t ++ sep :: r) = t :: split sep r.
Proof.
  induction t as [|c t IH]; simpl; intros H.
  - rewrite Ascii.eqb_refl. reflexivity.
  - destruct (Ascii.eqb_spec c sep) as [-> | Hc]; [tauto|].
    rewrite IH by tauto. reflexivity.
Qed.

Lemma split_join (sep : ascii) (ts : list chars) :
  ts <> [] -> Forall (fun t => ~ In sep t) ts ->
  split sep (join sep ts) = ts.
Proof.
  intros Hne H. induction H as [|t ts Ht Hts IH]; [contradiction|].
  destruct ts as [|t' ts].
  - simpl. apply split_no_sep. exact Ht.
  - change (join sep (t :: t' :: ts)) with (t ++ sep :: join sep (t' :: ts)).
    rewrite split_app_sep by exact Ht.
    rewrite IH by discriminate. reflexivity.
Qed.

Lemma lstrip_clean (set s : chars) :
  (forall c, In c s -> mem c set = false) -> lstrip set s = s.
Proof.
  destruct s as [|c s]; simpl; intros H; [reflexivity|].
  rewrite (H c) by (left; reflexivity). reflexivity.
Qed.

Lemma strip_clean (set s : chars) :
  (forall c, In c s -> mem c set = false) -> strip set s = s.
Proof.
  intros H. unfold strip, rstrip. rewrite (lstrip_clean set s H).
  rewrite lstrip_clean by (intros c Hc; apply H, in_rev; exact Hc).
  apply rev_involutive.
Qed.

Lemma in_join (sep : ascii) (ts : list chars) (c : ascii) :
  In c (join sep ts) -> c = sep \/ exists t, In t ts /\ In c t.
Proof.
  induction ts as [|t ts IH]; [intros []|].
  destruct ts as [|t' ts].
  - simpl. intros H. right. exists t. auto.
  - change (join sep (t :: t' :: ts)) with (t ++ sep :: join sep (t' :: ts)).
    rewrite in_app_iff. intros [H | [<- | H]].
    + right. exists t. split; [left; reflexivity | exact H].
    + left. reflexivity.
    + destruct (IH H) as [-> | (u & Hu & Hc)]; [left; reflexivity|].
      right. exists u. split; [right; exact Hu | exact Hc].
Qed.

Lemma mapM_int_decimal (l : list Z) :
  mapM int_of_chars (map decimal l) = Some l.
Proof.
  induction l as [|z l IH]; simpl; [reflexivity|].
  rewrite int_of_decimal, IH. reflexivity.
Qed.

(** X19: a neighbour list written as a bracketed, comma-separated list of
    decimal numerals is read back unchanged, for every non-empty list of
    integers. *)
Theorem parse_adj_format_adj (l : list Z) :
  l <> [] -> parse_adj (format_adj l) = Some l.
Proof.
  intros Hne. unfold parse_adj, format_adj.
  rewrite list_ascii_of_string_of_list_ascii.
  change ("["%char :: join ","%char (map decimal l) ++ ["]"%char])
    with (["["%char] ++ join ","%char (map decimal l) ++ ["]"%char]).
  rewrite strip_brackets by reflexivity.
  assert (Hnum : forall c t, In t (map decimal l) -> In c t ->
                             is_digit c = true \/ c = "-"%char).
  { intros c t Ht Hc. apply in_map_iff in Ht. destruct Ht as (z & <- & _).
    exact (decimal_chars z c Hc). }
  rewrite strip_clean.
  - rewrite split_join.
    + apply mapM_int_decimal.
    + destruct l; [contradiction | discriminate].
    + apply Forall_forall. intros t Ht Hc.
      destruct (Hnum _ _ Ht Hc) as [H | H]; discriminate.
  - intros c Hc. apply in_join in Hc.
    destruct Hc as [-> | (t & Ht & Hc)]; [reflexivity|].
    destruct (Hnum _ _ Ht Hc) as [H | ->]; [|reflexivity].
    destruct (mem c ["]"%char; "["%char]) eqn:E; [|reflexivity].
    unfold mem in E. simpl in E. rewrite orb_false_r in E.
    apply orb_true_iff in E.
    destruct E as [E | E]; apply Ascii.eqb_eq in E; subst; discriminate.
Qed.

Lemma parse_adj_format_adj_witness :
  parse_adj (format_adj [2; 3; 5]%Z) = Some [2; 3; 5]%Z.
Proof.
  apply (parse_adj_format_adj [2; 3; 5]%Z). discriminate.
Defined.

Lemma mapM_int_padded (items : list (chars * Z * chars)) :
  Forall (fun it => blank (fst (fst it)) = true /\ blank (snd it) = true) items ->
  mapM int_of_chars (map padded items) = Some (map (fun it => snd (fst it)) items).
Proof.
  induction 1 as [|[[a z] b] items [Ha Hb] _ IH]; simpl; [reflexivity|].
  unfold padded at 1. simpl. rewrite (int_of_padded a b z Ha Hb), IH. reflexivity.
Qed.

Lemma padded_chars (it : chars * Z * chars) (c : ascii) :
  blank (fst (fst it)) = true -> blank (snd it) = true ->
  In c (padded it) -> mem c ["]"%char; "["%char] = false /\ c <> ","%char.
Proof.
  destruct it as [[a z] b]. unfold padded, blank. simpl. intros Ha Hb.
  rewrite forallb_forall in Ha, Hb. rewrite !in_app_iff.
  intros [H | [H | H]].
  - destruct (space_char c (Ha c H)) as (_ & _ & _ & _ & Hm & Hc). auto.
  - destruct (decimal_chars z c H) as [Hd | ->]; [|split; [reflexivity | discriminate]].
    split; [|intros ->; discriminate].
    destruct (mem c ["]"%char; "["%char]) eqn:E; [|exact E].
    unfold mem in E. simpl in E. rewrite orb_false_r in E.
    apply orb_true_iff in E.
    destruct E as [E | E]; apply Ascii.eqb_eq in E; subst; discriminate.
  - destruct (space_char c (Hb c H)) as (_ & _ & _ & _ & Hm & Hc). auto.
Qed.

(** X20: whitespace around the numerals is ignored: a bracketed,
    comma-separated list whose numerals are surrounded by any whitespace is
    read as the list of its numbers. *)
Theorem parse_adj_ignores_padding (items : list (chars * Z * chars)) :
  items <> [] ->
  Forall (fun it => blank (fst (fst it)) = true /\ blank (snd it) = true) items ->
  parse_adj (format_adj_padded items) = Some (map (fun it => snd (fst it)) items).
Proof.
  intros Hne Hpad. unfold parse_adj, format_adj_padded.
  rewrite list_ascii_of_string_of_list_ascii.
  change ("["%char :: join ","%char (map padded items) ++ ["]"%char])
    with (["["%char] ++ join ","%char (map padded items) ++ ["]"%char]).
  rewrite strip_brackets by reflexivity.
  assert (Hch : forall c t, In t (map padded items) -> In c t ->
                            mem c ["]"%char; "["%char] = false /\ c <> ","%char).
  { intros c t Ht Hc. apply in_map_iff in Ht. destruct Ht as (it & <- & Hit).
    rewrite Forall_forall in Hpad. destruct (Hpad it Hit) as [Ha Hb].
    exact (padded_chars it c Ha Hb Hc). }
  rewrite strip_clean.
  - rewrite split_join.
    + apply mapM_int_padded. exact Hpad.
    + destruct items; [contradiction | discriminate].
    + apply Forall_forall. intros t Ht Hc. exact (proj2 (Hch _ _ Ht Hc) eq_refl).
  - intros c Hc. apply in_join in Hc.
    destruct Hc as [-> | (t & Ht & Hc)]; [reflexivity|].
    exact (proj1 (Hch _ _ Ht Hc)).
Qed.

Lemma parse_adj_ignores_padding_witness :
  parse_adj (format_adj_padded
               [([], 5%Z, []); ([" "%char], 9%Z, []); ([" "%char], 11%Z, [" "%char])])
  = Some (map (fun it => snd (fst it))
              [([], 5%Z, []); ([" "%char], 9%Z, []); ([" "%char], 11%Z, [" "%char])]).
Proof.
  apply (parse_adj_ignores_padding
           [([], 5%Z, []); ([" "%char], 9%Z, []); ([" "%char], 11%Z, [" "%char])]);
    [discriminate | repeat constructor].
Defined.

Lemma length_split (sep : ascii) (s : chars) :
  length (split sep s) = S (count_occ ascii_dec s sep).
Proof.
  induction s as [|c s IH]; simpl; [reflexivity|].
  destruct (Ascii.eqb_spec c sep) as [-> | Hc].
  - destruct (ascii_dec sep sep); [|contradiction]. simpl. rewrite IH. reflexivity.
  - destruct (ascii_dec c sep); [contradiction|].
    destruct (split sep s) eqn:E; simpl in *; lia.
Qed.

Lemma count_lstrip (set s : chars) (sep : ascii) :
  mem sep set = false ->
  count_occ ascii_dec (lstrip set s) sep = count_occ ascii_dec s sep.
Proof.
  intros Hs. induction s as [|c s IH]; simpl; [reflexivity|].
  destruct (mem c set) eqn:E; [|reflexivity].
  destruct (ascii_dec c sep) as [-> | _]; [congruence | exact IH].
Qed.

Lemma count_strip (set s : chars) (sep : ascii) :
  mem sep set = false ->
  count_occ ascii_dec (strip set s) sep = count_occ ascii_dec s sep.
Proof.
  intros Hs. unfold strip, rstrip.
  rewrite count_occ_rev, (count_lstrip _ _ _ Hs), count_occ_rev.
  apply count_lstrip. exact Hs.
Qed.

(** X21: a neighbour string that parses yields one number more than it
    has commas: every comma separates two numbers, none may be missing. *)
Theorem parse_adj_length (x : string) (l : list Z) :
  parse_adj x = Some l ->
  length l = S (count_occ ascii_dec (list_ascii_of_string x) ","%char).
Proof.
  unfold parse_adj. intros H.
  rewrite (mapM_length _ _ _ H), length_split, count_strip by reflexivity.
  reflexivity.
Qed.

Lemma parse_adj_length_witness :
  length [2; 3; 5]%Z
  = S (count_occ ascii_dec (list_ascii_of_string "[2,3,5]") ","%char).
Proof.
  apply (parse_adj_length "[2,3,5]" [2; 3; 5]%Z). reflexivity.
Defined.

(** X22: a string made of brackets only, the empty string and [[]]
    included, does not parse: an area without neighbours cannot be written
    in the column. *)
Theorem parse_adj_brackets_only (x : string) :
  brackets_only x = true -> parse_adj x = None.
Proof.
  unfold brackets_only, parse_adj. intros H.
  assert (E : strip ["]"%char; "["%char] (list_ascii_of_string x) = []).
  { unfold strip. rewrite (lstrip_all_nil _ _ H). reflexivity. }
  rewrite E. reflexivity.
Qed.

Lemma parse_adj_brackets_only_witness : parse_adj "[]" = None.
Proof.
  apply (parse_adj_brackets_only "[]"). reflexivity.
Defined.

End RoundTrip.
